(** * Progressive-enhancement pipeline of formulation-pubmed

    A shallow embedding of the coordination code of the repository:

    - [GitManager]  : src/git_manager.py, the commit/push cadence policy;
    - [Py]          : the Python built-ins the chunker relies on
                      (str.split, str.join, str.strip, range, slices);
    - [Chunker]     : BackgroundProcessor._create_rag_chunks;
    - [Pipeline]    : the shared queue, the dedup index and the loop bodies
                      of the search, processing, fulltext and ocr workers of
                      src/background_processor.py, with the collaborators
                      DataProcessor.process_articles and
                      FullTextDownloader.download_full_text, and the index
                      file of the processed PMIDs;
    - [Scraper]     : the batching of PubMedScraper.search_articles;
    - [Publication] : the loop body of the RSS worker with
                      RSSGenerator.generate_rss_feeds.

    Python ints are [Z]; dicts with string keys are [gmap string _]; the
    set of processed PMIDs is a [gset string]; the asyncio queue is a list
    (head = next item to be dequeued, [put] appends at the tail). The
    workers are coroutines on one event loop: a transition of the model is
    the code one worker runs between two suspending awaits, and the item a
    worker holds meanwhile is part of the state. *)

From Stdlib Require Import ZArith List String Ascii Bool Lia QArith.
From stdpp Require Import base option list gmap strings pretty sorting.

Set Default Proof Using "Type".

(* ===================================================================== *)
(** * git_manager.py *)
(* ===================================================================== *)

Module GitManager.
Local Open Scope Z_scope.

(** [datetime] values are microsecond counts; [timedelta.total_seconds()]
    compared with 3600 becomes a comparison with 3600 * 10^6. *)
Definition datetime := Z.
Definition one_hour : Z := 3600 * 1000000.

(** The mutable attributes of a [GitManager] instance. [last_push_time] is
    [None] until the first successful push. *)
Record t := mk {
  commit_count : Z;
  last_push_time : option datetime
}.

Definition init : t := {| commit_count := 0; last_push_time := None |}.

(** The three subprocess calls. Each helper ([_stage_changes],
    [_commit_changes], [_push_changes]) catches every exception and
    answers with a boolean. *)
Inductive GitOp := GitAdd | GitCommit | GitPush.

#[global] Instance GitOp_eq_dec : EqDecision GitOp.
Proof. solve_decision. Defined.

(** What the outside world answers during one call: the outcome of each
    subprocess, the clock read by [_is_hourly_push_needed] and the clock
    read when [last_push_time] is stamped. *)
Record Env := mkEnv {
  git_add_ok : bool;
  git_commit_ok : bool;
  git_push_ok : bool;
  now : datetime;
  push_stamp : datetime
}.

(** The dict literal of [_should_commit]. *)
Definition commit_conditions (count : Z) : gmap string bool :=
  list_to_map
    [ ("metadata", count mod 10 =? 0);
      ("abstract", count mod 5 =? 0);
      ("fulltext", count mod 3 =? 0);
      ("ocr", count mod 2 =? 0);
      ("batch_complete", true);
      ("status_update", true) ].

Definition _should_commit (stage : string) (count : Z) (force_push : bool) : bool :=
  if force_push then true
  else default false (commit_conditions count !! stage).

Definition _is_hourly_push_needed (self : t) (clock : datetime) : bool :=
  match last_push_time self with
  | None => true
  | Some last => one_hour <? clock - last
  end.

(** The dict literal of [_should_push]; the entry 'hourly' is the only
    place where the elapsed time is consulted. *)
Definition push_conditions (self : t) (clock : datetime) (count : Z) : gmap string bool :=
  list_to_map
    [ ("metadata", count mod 50 =? 0);
      ("abstract", count mod 25 =? 0);
      ("fulltext", count mod 10 =? 0);
      ("ocr", count mod 5 =? 0);
      ("batch_complete", true);
      ("status_update", true);
      ("hourly", _is_hourly_push_needed self clock) ].

Definition _should_push (self : t) (clock : datetime)
    (stage : string) (count : Z) (force_push : bool) : bool :=
  if force_push then true
  else default false (push_conditions self clock count !! stage).

(** Outcome of one call: the returned boolean, the instance afterwards and
    the subprocess calls made, oldest first, each with its answer. *)
Record Result := mkResult {
  returned : bool;
  after : t;
  ops : list (GitOp * bool)
}.

Definition commit_and_push_if_needed (env : Env) (self : t)
    (stage : string) (count : Z) (force_push : bool) : Result :=
  if negb (_should_commit stage count force_push) then
    mkResult false self []
  else
    (* await self._stage_changes(): the answer is not inspected *)
    let log1 := [(GitAdd, git_add_ok env)] in
    let log2 := log1 ++ [(GitCommit, git_commit_ok env)] in
    if negb (git_commit_ok env) then
      mkResult false self log2
    else
      let self1 := {| commit_count := commit_count self + 1;
                      last_push_time := last_push_time self |} in
      if _should_push self1 (now env) stage count force_push then
        let log3 := log2 ++ [(GitPush, git_push_ok env)] in
        if git_push_ok env then
          mkResult true
            {| commit_count := commit_count self1;
               last_push_time := Some (push_stamp env) |} log3
        else
          mkResult false self1 log3
      else
        mkResult true self1 log2.

(** The two observations of the contract
    [record(stage, count, force) -> {committed, pushed}]. *)
Definition committed (r : Result) : bool :=
  bool_decide ((GitCommit, true) ∈ ops r).
Definition pushed (r : Result) : bool :=
  bool_decide ((GitPush, true) ∈ ops r).
Definition attempted (op : GitOp) (r : Result) : bool :=
  bool_decide (op ∈ (ops r).*1).

(** More than one hour since the last successful push, or no push yet. *)
Definition heartbeat_due (self : t) (clock : datetime) : Prop :=
  match last_push_time self with
  | None => True
  | Some last => one_hour < clock - last
  end.

Definition all_ok (clock : datetime) : Env :=
  {| git_add_ok := true; git_commit_ok := true; git_push_ok := true;
     now := clock; push_stamp := clock |}.

(** [force_commit_and_push(message)]: stage, commit and push without any
    cadence test; the message only reaches the git command line. *)
Definition force_commit_and_push (env : Env) (self : t) : Result :=
  let log1 := [(GitAdd, git_add_ok env)] in
  let log2 := log1 ++ [(GitCommit, git_commit_ok env)] in
  if negb (git_commit_ok env) then
    mkResult false self log2
  else
    let log3 := log2 ++ [(GitPush, git_push_ok env)] in
    if git_push_ok env then
      mkResult true
        {| commit_count := commit_count self;
           last_push_time := Some (push_stamp env) |} log3
    else
      mkResult false self log3.

(** ** The subprocess helpers *)

(** What [subprocess.run] did: the command exited with a return code and
    an output, or the call raised (TimeoutExpired or another exception). *)
Inductive Subprocess :=
  | Exited (returncode : Z) (stdout : string)
  | RunRaised.

(** [sub in s] on strings. *)
Fixpoint contains (sub s : string) : bool :=
  String.prefix sub s ||
  match s with
  | EmptyString => false
  | String _ s' => contains sub s'
  end.

(** [_stage_changes] and [_push_changes]: true for return code 0 only. *)
Definition _stage_changes (run : Subprocess) : bool :=
  match run with
  | Exited returncode _ => if negb (returncode =? 0) then false else true
  | RunRaised => false
  end.

Definition _push_changes (run : Subprocess) : bool :=
  match run with
  | Exited returncode _ => if negb (returncode =? 0) then false else true
  | RunRaised => false
  end.

(** [_commit_changes]: a non-zero return code still answers True when the
    output says that there is nothing to commit. *)
Definition _commit_changes (run : Subprocess) : bool :=
  match run with
  | Exited returncode stdout =>
      if negb (returncode =? 0) then
        if contains "nothing to commit" stdout then true else false
      else true
  | RunRaised => false
  end.

(** The three subprocess runs of one call, and the answers that the
    helpers give for them. *)
Record GitRuns := mkGitRuns {
  add_run : Subprocess;
  commit_run : Subprocess;
  push_run : Subprocess
}.

Definition answers (runs : GitRuns) (clock stamp : datetime) : Env :=
  {| git_add_ok := _stage_changes (add_run runs);
     git_commit_ok := _commit_changes (commit_run runs);
     git_push_ok := _push_changes (push_run runs);
     now := clock;
     push_stamp := stamp |}.

(** The command exited with return code 0. *)
Definition exited_zero (run : Subprocess) : bool :=
  match run with
  | Exited returncode _ => returncode =? 0
  | RunRaised => false
  end.

(** 'git commit' exited with a non-zero return code because there was
    nothing to commit. *)
Definition nothing_to_commit (run : Subprocess) : bool :=
  match run with
  | Exited returncode stdout =>
      negb (returncode =? 0) && contains "nothing to commit" stdout
  | RunRaised => false
  end.

Definition exit_ok : Subprocess := Exited 0 EmptyString.

Definition clean_tree : Subprocess :=
  Exited 1 "On branch main nothing to commit, working tree clean".

(** Every git command exits 0. *)
Definition all_exit_ok : GitRuns :=
  {| add_run := exit_ok; commit_run := exit_ok; push_run := exit_ok |}.

(** 'git commit' finds a clean working tree. *)
Definition nothing_staged : GitRuns :=
  {| add_run := exit_ok; commit_run := clean_tree; push_run := exit_ok |}.

End GitManager.

(* ===================================================================== *)
(** * Python built-ins used by the chunker *)
(* ===================================================================== *)

Module Py.
Local Open Scope Z_scope.

(** Exceptions that the modelled code can raise. *)
Inductive exn := ValueError | IndexError.

Inductive result (A : Type) :=
  | Ok (a : A)
  | Raise (e : exn).
Arguments Ok {A} a.
Arguments Raise {A} e.

Definition len {A} (l : list A) : Z := Z.of_nat (length l).
Definition strlen (s : string) : Z := Z.of_nat (String.length s).

(** [str.isspace] on the code points below 256: TAB..CR, FS..US, SPACE,
    NEL and NBSP. Texts are strings over these code points. *)
Definition isspace (c : ascii) : bool :=
  let n := nat_of_ascii c in
  ((9 <=? n) && (n <=? 13) || (28 <=? n) && (n <=? 31) ||
   (n =? 32) || (n =? 133) || (n =? 160))%nat.

Definition starts_word (s : string) : bool :=
  match s with
  | EmptyString => false
  | String c _ => negb (isspace c)
  end.

(** [s.split()]: maximal runs of non-whitespace characters, in order. *)
Fixpoint split (s : string) : list string :=
  match s with
  | EmptyString => []
  | String c s' =>
      if isspace c then split s'
      else if starts_word s' then
        match split s' with
        | w :: ws => String c w :: ws
        | [] => [String c EmptyString]
        end
      else String c EmptyString :: split s'
  end.

(** [sep.join(ws)]. *)
Fixpoint join (sep : string) (ws : list string) : string :=
  match ws with
  | [] => EmptyString
  | [w] => w
  | w :: ws' => (w ++ sep ++ join sep ws')%string
  end.

Fixpoint lstrip (s : string) : string :=
  match s with
  | EmptyString => EmptyString
  | String c s' => if isspace c then lstrip s' else s
  end.

Fixpoint rstrip (s : string) : string :=
  match s with
  | EmptyString => EmptyString
  | String c s' =>
      match rstrip s' with
      | EmptyString => if isspace c then EmptyString else String c EmptyString
      | r => String c r
      end
  end.

(** [s.strip()]. *)
Definition strip (s : string) : string := rstrip (lstrip s).

(** Bound adjustment of a slice with step 1: a negative bound counts from
    the end, and both bounds are clamped to [0, n]. *)
Definition adjust_index (n k : Z) : Z :=
  if k <? 0 then Z.max 0 (k + n) else Z.min k n.

(** [l[i:j]]. *)
Definition slice {A} (l : list A) (i j : Z) : list A :=
  let lo := adjust_index (len l) i in
  let hi := adjust_index (len l) j in
  take (Z.to_nat (hi - lo)) (drop (Z.to_nat lo) l).

(** Number of elements of [range(start, stop, step)] for [step <> 0]. *)
Definition range_length (start stop step : Z) : Z :=
  if 0 <? step then
    if start <? stop then (stop - start - 1) / step + 1 else 0
  else
    if stop <? start then (start - stop - 1) / (- step) + 1 else 0.

(** [range(start, stop, step)], the elements in iteration order;
    a zero step raises ValueError. *)
Definition range (start stop step : Z) : result (list Z) :=
  if step =? 0 then Raise ValueError
  else Ok (map (fun k : nat => start + Z.of_nat k * step)
               (seq 0 (Z.to_nat (range_length start stop step)))).

End Py.

(* ===================================================================== *)
(** * BackgroundProcessor._create_rag_chunks *)
(* ===================================================================== *)

Module Chunker.
Import Py.
Local Open Scope Z_scope.

Record Chunk := mkChunk {
  pmid : string;
  chunk_id : string;
  text : string;
  start_word : Z;
  end_word : Z;
  word_count : Z
}.

(** The words and the text of the window that starts at word [i]. *)
Definition chunk_words (words : list string) (chunk_size i : Z) : list string :=
  slice words i (i + chunk_size).
Definition chunk_text (words : list string) (chunk_size i : Z) : string :=
  join " " (chunk_words words chunk_size i).

(** The test [len(chunk_text.strip()) > 50]. *)
Definition long_enough (t : string) : bool := 50 <? strlen (strip t).

(** The dict appended for the window at [i] when [k] chunks exist. *)
Definition make_chunk (words : list string) (pmid : string) (chunk_size : Z)
    (k : nat) (i : Z) : Chunk :=
  {| pmid := pmid;
     chunk_id := (pmid ++ "_" ++ pretty k)%string;
     text := chunk_text words chunk_size i;
     start_word := i;
     end_word := Z.min (i + chunk_size) (len words);
     word_count := len (chunk_words words chunk_size i) |}.

(** One iteration of the [for] loop. *)
Definition loop_body (words : list string) (pmid : string) (chunk_size : Z)
    (chunks : list Chunk) (i : Z) : list Chunk :=
  if long_enough (chunk_text words chunk_size i)
  then chunks ++ [make_chunk words pmid chunk_size (length chunks) i]
  else chunks.

Definition _create_rag_chunks (text : string) (pmid : string)
    (chunk_size overlap : Z) : result (list Chunk) :=
  let words := split text in
  match range 0 (len words) (chunk_size - overlap) with
  | Raise e => Raise e
  | Ok starts => Ok (fold_left (loop_body words pmid chunk_size) starts [])
  end.

(** The window texts, kept or not, in loop order (empty when the range
    cannot be built). *)
Definition window_starts (text : string) (chunk_size overlap : Z) : list Z :=
  match range 0 (len (split text)) (chunk_size - overlap) with
  | Ok starts => starts
  | Raise _ => []
  end.
Definition window_texts (text : string) (chunk_size overlap : Z) : list string :=
  map (chunk_text (split text) chunk_size) (window_starts text chunk_size overlap).

(** Test texts: [n] copies of a word separated by single blanks. *)
Fixpoint repeat_word (w : string) (n : nat) : string :=
  match n with
  | O => EmptyString
  | S O => w
  | S n' => (w ++ " " ++ repeat_word w n')%string
  end.

(** ** Predicates and test data for the properties below *)

Fixpoint nospace (s : string) : bool :=
  match s with
  | EmptyString => true
  | String c s' => negb (isspace c) && nospace s'
  end.

(** A word: not empty, and free of whitespace. *)
Definition is_word (w : string) : Prop :=
  starts_word w = true /\ nospace w = true.

(** A text of exactly 50 characters, a single word, and one of 51 with
    the chunk made of it. *)
Definition fifty_chars : string :=
  "abcdefghijklmnopqrstuvwxyzabcdefghijklmnopqrstuvwx".

Definition fifty_one_chars : string :=
  "abcdefghijklmnopqrstuvwxyzabcdefghijklmnopqrstuvwxy".

Definition chunk_of_51 : Chunk :=
  {| pmid := "1"; chunk_id := "1_0"; text := fifty_one_chars;
     start_word := 0; end_word := 1; word_count := 1 |}.

End Chunker.

(* ===================================================================== *)
(** * background_processor.py: queue, dedup index and worker loop bodies *)
(* ===================================================================== *)

Module Pipeline.
Import Py.

(** Values stored in article dicts. Floats are the rationals they denote. *)
#[local] Unset Elimination Schemes.
Inductive pyval :=
  | PNone
  | PStr (s : string)
  | PFloat (q : Q)
  | PList (l : list pyval)
  | PDict (d : list (string * pyval)).
#[local] Set Elimination Schemes.

Abbreviation Article := (gmap string pyval).

(** Truth value of a Python object in a condition. *)
Definition truthy (v : pyval) : bool :=
  match v with
  | PNone => false
  | PStr s => negb (String.eqb s EmptyString)
  | PFloat q => negb (Qeq_bool q 0)
  | PList l => negb (bool_decide (length l = 0%nat))
  | PDict d => negb (bool_decide (length d = 0%nat))
  end.

(** [d.get(key)]: a missing key reads as [None]. *)
Definition get (d : Article) (key : string) : pyval :=
  default PNone (d !! key).

(** A dict in a condition is true when it is not empty. *)
Definition dict_truthy (d : Article) : bool := negb (bool_decide (d = ∅)).

Definition opt_str (o : option string) : pyval :=
  match o with
  | Some s => PStr s
  | None => PNone
  end.

(** ** pubmed_scraper.py: the dict built by [_extract_article_data] *)

(** The texts taken from one PubmedArticle element; [None] is the [text]
    of an empty element. *)
Record Extracted := mkExtracted {
  pmid_text : option string;
  title_text : option string;
  abstract_text : option string;
  authors : list string;
  journal_text : option string;
  pub_date : string;
  doi_text : option string;
  keywords : list string;
  mesh_terms : list string;
  scraped_at : string
}.

Definition format_opt (o : option string) : string :=
  match o with
  | Some s => s
  | None => "None"
  end.

Definition _extract_article_data (x : Extracted) : Article :=
  list_to_map
    [ ("pmid", opt_str (pmid_text x));
      ("title", opt_str (title_text x));
      ("abstract", opt_str (abstract_text x));
      ("authors", PList (PStr <$> authors x));
      ("journal", opt_str (journal_text x));
      ("publication_date", PStr (pub_date x));
      ("doi", opt_str (doi_text x));
      ("keywords", PList (PStr <$> keywords x));
      ("mesh_terms", PList (PStr <$> mesh_terms x));
      ("url", PStr ("https://pubmed.ncbi.nlm.nih.gov/" ++ format_opt (pmid_text x) ++ "/"));
      ("scraped_at", PStr (scraped_at x)) ].

(** What ElementTree hands out as the [.text] of the PMID element of a
    parsed document: None when the element has no character data, and a
    str that is not empty otherwise ("N/A" stands in when the element is
    missing). *)
Definition parsed (x : Extracted) : Prop := pmid_text x <> Some EmptyString.

(** ** data_processor.py *)

(** What the scoring and extraction heuristics compute for one article. *)
Record Enrichment := mkEnrichment {
  relevance_score : Q;
  formulation_relevance : pyval;
  cannabis_relevance : pyval;
  extracted_entities : pyval;
  key_phrases : pyval;
  processing_timestamp : string
}.

(** The float literal 0.3, as the rational it denotes in binary64. *)
Definition relevance_threshold : Q := 5404319552844595 # 18014398509481984.

Section DataProcessor.
(** The heuristics of [DataProcessor]; [None] when one of them raises. *)
Variable heuristics : Article -> option Enrichment.

Definition _process_single_article (article : Article) : option Article :=
  match heuristics article with
  | None => None
  | Some e =>
      let processed :=
        <["processing_timestamp" := PStr (processing_timestamp e)]>
        (<["key_phrases" := key_phrases e]>
        (<["extracted_entities" := extracted_entities e]>
        (<["cannabis_relevance" := cannabis_relevance e]>
        (<["formulation_relevance" := formulation_relevance e]>
        (<["relevance_score" := PFloat (relevance_score e)]> article))))) in
      (* if processed['relevance_score'] < 0.3: return None *)
      if Qle_bool relevance_threshold (relevance_score e)
      then Some processed
      else None
  end.

Definition process_articles (articles : list Article) : list Article :=
  fold_left
    (fun processed_articles article =>
       match _process_single_article article with
       | Some processed_article =>
           if dict_truthy processed_article
           then processed_articles ++ [processed_article]
           else processed_articles
       | None => processed_articles
       end)
    articles [].
End DataProcessor.

(** ** fulltext_downloader.py *)

(** What one source adapter does: it raises, or returns a dict or None. *)
Inductive AdapterOutcome :=
  | Raised
  | Returned (r : option Article).

Record FetchEnv := mkFetchEnv {
  (** the answer of [_check_existing_download] *)
  existing_download : option Article;
  (** the answer of each [_download_from_*], by source name *)
  adapter : string -> AdapterOutcome
}.

Definition sources : list string :=
  ["pubmed_central"; "arxiv"; "sci_hub"; "direct_pdf"].

(** [result and result.get('full_text')] *)
Definition has_full_text (r : option Article) : bool :=
  match r with
  | Some d => dict_truthy d && truthy (get d "full_text")
  | None => false
  end.

Fixpoint try_sources (fenv : FetchEnv) (srcs : list string) : option Article :=
  match srcs with
  | [] => None
  | source_name :: srcs' =>
      match adapter fenv source_name with
      | Raised => try_sources fenv srcs'
      | Returned r =>
          if has_full_text r then r else try_sources fenv srcs'
      end
  end.

Definition download_full_text (fenv : FetchEnv) (article : Article) : Article :=
  match existing_download fenv with
  | Some existing_text =>
      if dict_truthy existing_text then existing_text
      else default article (try_sources fenv sources)
  | None => default article (try_sources fenv sources)
  end.

(** ** The shared state of [BackgroundProcessor] *)

Record WorkItem := mkItem {
  pmid : string;
  article : Article;
  stage : string;
  category : string;
  search_term : string
}.

(** Calls that leave the worker loops: persistence, and the
    [logger.error] of a loop's [except Exception] clause. *)
Inductive Call :=
  | StoreMetadataAndAbstract (pmid : string) (article : Article)
  | StoreArticleFulltext (pmid : string) (fulltext_data : Article)
  | ProcessOcrForRag (pmid : string) (article : Article)
  | LoggerError (worker : string) (e : exn).

(** Where a consumer coroutine stands, with the locals it holds. The
    workers interleave only at an [await] that suspends: the [get] on the
    queue, the download and the storing of the full text. *)
Inductive Task :=
  | Waiting                                   (* at queue.get() *)
  | Holding (item : WorkItem)                 (* get() has returned item *)
  | Downloading (item : WorkItem)             (* at download_full_text *)
  | Storing (item : WorkItem) (fulltext_data : Article).
                                              (* at store_article_fulltext *)

Record State := mkState {
  processing_queue : list WorkItem;
  processed_pmids : gset string;
  calls : list Call;
  processing_task : Task;
  fulltext_task : Task;
  ocr_task : Task
}.

(** [await self.processing_queue.put(item)]: the queue is unbounded, the
    call never suspends. *)
Definition put (item : WorkItem) (s : State) : State :=
  {| processing_queue := processing_queue s ++ [item];
     processed_pmids := processed_pmids s;
     calls := calls s;
     processing_task := processing_task s;
     fulltext_task := fulltext_task s;
     ocr_task := ocr_task s |}.

Definition call (c : Call) (s : State) : State :=
  {| processing_queue := processing_queue s;
     processed_pmids := processed_pmids s;
     calls := calls s ++ [c];
     processing_task := processing_task s;
     fulltext_task := fulltext_task s;
     ocr_task := ocr_task s |}.

Definition set_queue (q : list WorkItem) (s : State) : State :=
  {| processing_queue := q;
     processed_pmids := processed_pmids s;
     calls := calls s;
     processing_task := processing_task s;
     fulltext_task := fulltext_task s;
     ocr_task := ocr_task s |}.

(** [self.processed_pmids.add(p)] *)
Definition add_processed (p : string) (s : State) : State :=
  {| processing_queue := processing_queue s;
     processed_pmids := {[ p ]} ∪ processed_pmids s;
     calls := calls s;
     processing_task := processing_task s;
     fulltext_task := fulltext_task s;
     ocr_task := ocr_task s |}.

Definition set_processing_task (t : Task) (s : State) : State :=
  {| processing_queue := processing_queue s;
     processed_pmids := processed_pmids s;
     calls := calls s;
     processing_task := t;
     fulltext_task := fulltext_task s;
     ocr_task := ocr_task s |}.

Definition set_fulltext_task (t : Task) (s : State) : State :=
  {| processing_queue := processing_queue s;
     processed_pmids := processed_pmids s;
     calls := calls s;
     processing_task := processing_task s;
     fulltext_task := t;
     ocr_task := ocr_task s |}.

Definition set_ocr_task (t : Task) (s : State) : State :=
  {| processing_queue := processing_queue s;
     processed_pmids := processed_pmids s;
     calls := calls s;
     processing_task := processing_task s;
     fulltext_task := fulltext_task s;
     ocr_task := t |}.

(** State after [__init__] and [start]: the index loaded from the
    snapshot, an empty queue, every consumer at its [get]. *)
Definition initial (loaded : gset string) : State :=
  {| processing_queue := []; processed_pmids := loaded; calls := [];
     processing_task := Waiting; fulltext_task := Waiting; ocr_task := Waiting |}.

(** [item = await asyncio.wait_for(self.processing_queue.get(), 1.0)]:
    the head of the queue, or nothing (TimeoutError, [continue]). *)
Definition queue_get (s : State) : option (WorkItem * State) :=
  match processing_queue s with
  | [] => None
  | item :: rest => Some (item, set_queue rest s)
  end.

(** ** _search_worker: the loop over the articles found for one term *)

(** [pmid and pmid not in self.processed_pmids]; 'pmid' holds a str or
    None in every dict built by [_extract_article_data]. *)
Definition new_pmid (processed : gset string) (article : Article) : option string :=
  match get article "pmid" with
  | PStr p =>
      if truthy (PStr p) && negb (bool_decide (p ∈ processed)) then Some p else None
  | _ => None
  end.

Definition enqueue_article (category term : string) (s : State) (article : Article) : State :=
  match new_pmid (processed_pmids s) article with
  | Some p =>
      put {| pmid := p; article := article; stage := "metadata";
             category := category; search_term := term |} s
  | None => s
  end.

Definition enqueue_articles (category term : string) (articles : list Article)
    (s : State) : State :=
  fold_left (enqueue_article category term) articles s.

(** The successors put on the queue by the processing and the fulltext
    worker. *)
Definition fulltext_successor (item : WorkItem) (processed_article : Article) : WorkItem :=
  {| pmid := pmid item; article := processed_article; stage := "fulltext";
     category := category item; search_term := search_term item |}.

Definition ocr_successor (item : WorkItem) (fulltext_data : Article) : WorkItem :=
  {| pmid := pmid item; article := fulltext_data; stage := "ocr";
     category := category item; search_term := search_term item |}.

Section Workers.
Variable heuristics : Article -> option Enrichment.

(** ** _processing_worker *)

Definition _processing_worker_get (s : State) : State :=
  match processing_task s, queue_get s with
  | Waiting, Some (item, s) => set_processing_task (Holding item) s
  | _, _ => s
  end.

(** The loop body once [get] has returned; it has no suspending [await]
    ([put] and [_store_metadata_and_abstract] never suspend). *)
Definition _processing_worker_item (s : State) : State :=
  match processing_task s with
  | Holding item =>
      let s := set_processing_task Waiting s in
      if bool_decide (pmid item ∈ processed_pmids s) then s   (* continue *)
      else
        match process_articles heuristics [article item] !! 0%nat with
        | None =>
            (* [...][0] raises IndexError, caught by except Exception *)
            call (LoggerError "processing" IndexError) s
        | Some processed_article =>
            let s :=
              if dict_truthy processed_article then
                let s := call (StoreMetadataAndAbstract (pmid item) processed_article) s in
                put (fulltext_successor item processed_article) s
              else s in
            add_processed (pmid item) s
        end
  | _ => s
  end.

(** ** _fulltext_worker *)

Definition _fulltext_worker_get (s : State) : State :=
  match fulltext_task s, queue_get s with
  | Waiting, Some (item, s) => set_fulltext_task (Holding item) s
  | _, _ => s
  end.

(** From the return of [get] to the call of [download_full_text]. *)
Definition _fulltext_worker_item (s : State) : State :=
  match fulltext_task s with
  | Holding item =>
      if negb (String.eqb (stage item) "fulltext") then
        (* put back for other workers *)
        put item (set_fulltext_task Waiting s)
      else
        set_fulltext_task (Downloading item) s
  | _ => s
  end.

(** From the return of [download_full_text] to the call of
    [store_article_fulltext], or to the end of the iteration. *)
Definition _fulltext_worker_downloaded (fenv : FetchEnv) (s : State) : State :=
  match fulltext_task s with
  | Downloading item =>
      let fulltext_data := download_full_text fenv (article item) in
      if dict_truthy fulltext_data && truthy (get fulltext_data "full_text") then
        set_fulltext_task (Storing item fulltext_data)
          (call (StoreArticleFulltext (pmid item) fulltext_data) s)
      else
        set_fulltext_task Waiting s
  | _ => s
  end.

(** After [store_article_fulltext]: the successor is put on the queue. *)
Definition _fulltext_worker_stored (s : State) : State :=
  match fulltext_task s with
  | Storing item fulltext_data =>
      put (ocr_successor item fulltext_data) (set_fulltext_task Waiting s)
  | _ => s
  end.

(** ** _ocr_worker *)

Definition _ocr_worker_get (s : State) : State :=
  match ocr_task s, queue_get s with
  | Waiting, Some (item, s) => set_ocr_task (Holding item) s
  | _, _ => s
  end.

Definition _ocr_worker_item (s : State) : State :=
  match ocr_task s with
  | Holding item =>
      let s := set_ocr_task Waiting s in
      if negb (String.eqb (stage item) "ocr") then
        put item s                          (* put back for other workers *)
      else
        call (ProcessOcrForRag (pmid item) (article item)) s
  | _ => s
  end.

(** ** Interleavings of the workers *)

(** One transition is the code a worker runs between two suspensions. *)
Inductive step : State -> State -> Prop :=
  | step_search category term xs s :
      step s (enqueue_articles category term (_extract_article_data <$> xs) s)
  | step_processing_get s : step s (_processing_worker_get s)
  | step_processing_item s : step s (_processing_worker_item s)
  | step_fulltext_get s : step s (_fulltext_worker_get s)
  | step_fulltext_item s : step s (_fulltext_worker_item s)
  | step_fulltext_downloaded fenv s : step s (_fulltext_worker_downloaded fenv s)
  | step_fulltext_stored s : step s (_fulltext_worker_stored s)
  | step_ocr_get s : step s (_ocr_worker_get s)
  | step_ocr_item s : step s (_ocr_worker_item s).

Inductive steps : State -> State -> Prop :=
  | steps_refl s : steps s s
  | steps_next s1 s2 s3 : steps s1 s2 -> step s2 s3 -> steps s1 s3.

Definition reachable (s : State) : Prop :=
  exists loaded, steps (initial loaded) s.
End Workers.

(** Every source adapter fails and nothing was downloaded before. *)
Definition adapter_failed (o : AdapterOutcome) : Prop :=
  match o with
  | Raised => True
  | Returned r => has_full_text r = false
  end.

Definition fetch_fails (fenv : FetchEnv) : Prop :=
  existing_download fenv = None /\
  Forall (fun source_name => adapter_failed (adapter fenv source_name)) sources.

(** ** Predicates and scenarios for the properties below *)

(** The item enqueued for a found article. *)
Definition pmid_string (a : Article) : string :=
  match get a "pmid" with
  | PStr p => p
  | _ => EmptyString
  end.

Definition metadata_item (category term : string) (a : Article) : WorkItem :=
  {| pmid := pmid_string a; article := a; stage := "metadata";
     category := category; search_term := term |}.

(** The record carries a non-empty identifier that is not in the index. *)
Definition fresh_id (index : gset string) (a : Article) : bool :=
  match get a "pmid" with
  | PStr p => negb (String.eqb p EmptyString) && bool_decide (p ∉ index)
  | _ => false
  end.

(** The record carries an identifier that is not in the index. *)
Definition absent_id (index : gset string) (a : Article) : bool :=
  match get a "pmid" with
  | PStr p => bool_decide (p ∉ index)
  | _ => false
  end.

(** Items the search loop appended to the queue. *)
Definition enqueued (before after : State) : list WorkItem :=
  drop (length (processing_queue before)) (processing_queue after).

(** The item a worker holds; while the full text is being stored it is
    the successor that will be put on the queue. *)
Definition held (t : Task) : list WorkItem :=
  match t with
  | Waiting => []
  | Holding item => [item]
  | Downloading item => [item]
  | Storing item fulltext_data => [ocr_successor item fulltext_data]
  end.

(** Every item of the pipeline: held by a worker or on the queue. *)
Definition live (s : State) : list WorkItem :=
  held (processing_task s) ++ held (fulltext_task s) ++ held (ocr_task s) ++
  processing_queue s.

(** Every item past the metadata stage has its PMID in the index, and an
    article that reaches the fulltext stage carries no 'full_text' yet. *)
Definition item_ok (index : gset string) (it : WorkItem) : Prop :=
  (stage it = "metadata" /\ article it !! "full_text" = None) \/
  (stage it = "fulltext" /\ pmid it ∈ index /\ article it !! "full_text" = None) \/
  (stage it = "ocr" /\ pmid it ∈ index).

Definition advanced (it : WorkItem) : Prop := stage it <> "metadata".

Definition advanced_pmids (q : list WorkItem) : list string :=
  pmid <$> filter advanced q.

(** The items are well formed, and no two items past the metadata stage
    have the same PMID. *)
Definition good (index : gset string) (l : list WorkItem) : Prop :=
  Forall (item_ok index) l /\ NoDup (advanced_pmids l).

Definition inv (s : State) : Prop :=
  good (processed_pmids s) (live s) /\
  (forall item, fulltext_task s = Downloading item -> stage item = "fulltext").

(** The PMID is in the index and no item with this PMID is past the
    metadata stage. *)
Definition parked (p : string) (s : State) : Prop :=
  p ∈ processed_pmids s /\
  Forall (fun it => pmid it = p -> stage it = "metadata") (live s).

(** What one transition does to the items of the pipeline: it moves
    them between the queue and the workers, appends found records, drops
    an item, or replaces an item by its successor. *)
Inductive effect (s s' : State) : Prop :=
  | effect_moved :
      live s' ≡ₚ live s ->
      processed_pmids s' = processed_pmids s -> effect s s'
  | effect_found news :
      live s' = live s ++ news ->
      Forall (fun it => stage it = "metadata" /\ article it !! "full_text" = None) news ->
      processed_pmids s' = processed_pmids s -> effect s s'
  | effect_dropped item :
      live s ≡ₚ item :: live s' ->
      processed_pmids s' = processed_pmids s -> effect s s'
  | effect_enriched item processed_article others :
      live s ≡ₚ item :: others ->
      live s' ≡ₚ fulltext_successor item processed_article :: others ->
      pmid item ∉ processed_pmids s ->
      processed_pmids s' = {[ pmid item ]} ∪ processed_pmids s ->
      processed_article !! "full_text" = article item !! "full_text" ->
      effect s s'
  | effect_downloaded item fulltext_data others :
      fulltext_task s = Downloading item ->
      live s ≡ₚ item :: others ->
      live s' ≡ₚ ocr_successor item fulltext_data :: others ->
      processed_pmids s' = processed_pmids s -> effect s s'.

(** Records of the scenarios. *)
Definition extracted (p : option string) (title : string) : Extracted :=
  {| pmid_text := p; title_text := Some title; abstract_text := Some "abstract";
     authors := []; journal_text := None; pub_date := "2024-01-01";
     doi_text := None; keywords := []; mesh_terms := [];
     scraped_at := "2024-06-01T00:00:00" |}.

Definition found (p : option string) : Article :=
  _extract_article_data (extracted p "title").

(** Heuristics of the scenarios: a constant score. *)
Definition scoring (q : Q) : Article -> option Enrichment :=
  fun _ =>
    Some {| relevance_score := q;
            formulation_relevance := PDict [];
            cannabis_relevance := PDict [];
            extracted_entities := PDict [];
            key_phrases := PList [];
            processing_timestamp := "2024-06-01T00:00:01" |}.

Definition low_relevance : Article -> option Enrichment := scoring (1 # 10).
Definition high_relevance : Article -> option Enrichment := scoring (9 # 10).

(** The search loop found [p]; the processing worker has taken the
    item from the queue. *)
Definition found_and_taken (p : string) : State :=
  _processing_worker_get
    (enqueue_articles "cannabinoids" "cbd formulation"
       (_extract_article_data <$> [extracted (Some p) "title"]) (initial ∅)).

Definition metadata_item_444 : WorkItem :=
  metadata_item "cannabinoids" "cbd formulation" (found (Some "444")).

Definition enriched_333 : Article :=
  default ∅ (_process_single_article high_relevance (found (Some "333"))).

Definition fulltext_item_333 : WorkItem :=
  {| pmid := "333"; article := enriched_333; stage := "fulltext";
     category := "cannabinoids"; search_term := "cbd formulation" |}.

(** "333" was enriched: the queue holds its fulltext item and "333" is
    in the index. *)
Definition fulltext_pending : State :=
  _processing_worker_item high_relevance (found_and_taken "333").

(** The processing worker is the one that takes the fulltext item. *)
Definition fulltext_item_taken_by_processing : State :=
  _processing_worker_get fulltext_pending.

(** The fulltext worker takes it and starts the download. *)
Definition download_started : State :=
  _fulltext_worker_item (_fulltext_worker_get fulltext_pending).

Definition no_source : FetchEnv :=
  {| existing_download := None; adapter := fun _ => Returned None |}.

(** ** The persistence calls, by stage *)

Definition metadata_calls (cs : list Call) : list string :=
  omap (fun c => match c with StoreMetadataAndAbstract p _ => Some p | _ => None end) cs.

Definition fulltext_calls (cs : list Call) : list string :=
  omap (fun c => match c with StoreArticleFulltext p _ => Some p | _ => None end) cs.

Definition ocr_calls (cs : list Call) : list string :=
  omap (fun c => match c with ProcessOcrForRag p _ => Some p | _ => None end) cs.

(** A call of a later stage needs the call of the stage before it, for
    the same PMID, among the calls [cs] made so far. *)
Definition call_in_order (cs : list Call) (c : Call) : Prop :=
  match c with
  | StoreArticleFulltext p _ => p ∈ metadata_calls cs
  | ProcessOcrForRag p _ => p ∈ fulltext_calls cs
  | _ => True
  end.

Definition in_stage_order (cs : list Call) : Prop :=
  forall (i : nat) c, cs !! i = Some c -> call_in_order (take i cs) c.

(** The article carries a relevance score of 0.3 or more. *)
Definition relevant (a : Article) : Prop :=
  exists q, a !! "relevance_score" = Some (PFloat q) /\ Qle relevance_threshold q.

(** What one transition does to the items, the index and the calls. *)
Inductive traced (s s' : State) : Prop :=
  | traced_moved :
      live s' ≡ₚ live s ->
      processed_pmids s' = processed_pmids s ->
      calls s' = calls s -> traced s s'
  | traced_found news :
      live s' = live s ++ news ->
      Forall (fun it => stage it = "metadata" /\ pmid it <> EmptyString /\
                        get (article it) "pmid" = PStr (pmid it)) news ->
      processed_pmids s' = processed_pmids s ->
      calls s' = calls s -> traced s s'
  | traced_skipped item :
      live s ≡ₚ item :: live s' ->
      processed_pmids s' = processed_pmids s ->
      calls s' = calls s \/
      calls s' = calls s ++ [LoggerError "processing" IndexError] ->
      traced s s'
  | traced_enriched item processed_article others :
      live s ≡ₚ item :: others ->
      live s' ≡ₚ fulltext_successor item processed_article :: others ->
      pmid item ∉ processed_pmids s ->
      processed_pmids s' = {[ pmid item ]} ∪ processed_pmids s ->
      calls s' = calls s ++ [StoreMetadataAndAbstract (pmid item) processed_article] ->
      processed_article !! "pmid" = article item !! "pmid" ->
      relevant processed_article ->
      traced s s'
  | traced_stored item fulltext_data others :
      fulltext_task s = Downloading item ->
      live s ≡ₚ item :: others ->
      live s' ≡ₚ ocr_successor item fulltext_data :: others ->
      processed_pmids s' = processed_pmids s ->
      calls s' = calls s ++ [StoreArticleFulltext (pmid item) fulltext_data] ->
      truthy (get fulltext_data "full_text") = true ->
      traced s s'
  | traced_chunked item :
      stage item = "ocr" ->
      live s ≡ₚ item :: live s' ->
      processed_pmids s' = processed_pmids s ->
      calls s' = calls s ++ [ProcessOcrForRag (pmid item) (article item)] ->
      traced s s'.

(** The bookkeeping that ties the calls to the items. *)
Record accounted (loaded : gset string) (s : State) : Prop := {
  index_exact :
    processed_pmids s = loaded ∪ list_to_set (metadata_calls (calls s));
  metadata_new : forall p, p ∈ metadata_calls (calls s) -> p ∉ loaded;
  metadata_once : NoDup (metadata_calls (calls s));
  fulltext_once : NoDup (fulltext_calls (calls s));
  ocr_once : NoDup (ocr_calls (calls s));
  calls_ordered : in_stage_order (calls s);
  advanced_stored : forall it, it ∈ live s -> stage it <> "metadata" ->
                      pmid it ∈ metadata_calls (calls s);
  ocr_fetched : forall it, it ∈ live s -> stage it = "ocr" ->
                  pmid it ∈ fulltext_calls (calls s);
  fetched_left : forall it, it ∈ live s -> pmid it ∈ fulltext_calls (calls s) ->
                   stage it <> "fulltext";
  chunked_left : forall it, it ∈ live s -> pmid it ∈ ocr_calls (calls s) ->
                   stage it = "metadata"
}.

(** What the items and the calls carry. *)
Record sound (s : State) : Prop := {
  pmids_nonempty : forall it, it ∈ live s -> pmid it <> EmptyString;
  pmids_labelled : forall it, it ∈ live s -> stage it <> "ocr" ->
                     get (article it) "pmid" = PStr (pmid it);
  metadata_sound : forall p a, StoreMetadataAndAbstract p a ∈ calls s ->
                     p <> EmptyString /\ get a "pmid" = PStr p /\ relevant a;
  fulltext_sound : forall p d, StoreArticleFulltext p d ∈ calls s ->
                     truthy (get d "full_text") = true;
  ocr_stored : forall it, it ∈ live s -> stage it = "ocr" ->
                 StoreArticleFulltext (pmid it) (article it) ∈ calls s;
  ocr_sound : forall p a, ProcessOcrForRag p a ∈ calls s ->
                StoreArticleFulltext p a ∈ calls s
}.

(** ** data_processor.py: the keys written by [_process_single_article] *)

Definition enrichment_keys : list string :=
  ["relevance_score"; "formulation_relevance"; "cannabis_relevance";
   "extracted_entities"; "key_phrases"; "processing_timestamp"].

(** ** The index file of [_save_processed_index] *)

Record IndexFile := mkIndexFile {
  pmids : list string;
  last_updated : string;
  total_processed : Z
}.

(** The file as it is written when no exception occurs;
    [list(self.processed_pmids)] enumerates each element once. *)
Definition _save_processed_index (index : gset string) (stamp : string) : IndexFile :=
  {| pmids := elements index;
     last_updated := stamp;
     total_processed := len (elements index) |}.

(** The set read back at start-up; with no file, or a file that cannot be
    read, the index is the empty set. *)
Definition _load_processed_index (file : option IndexFile) : gset string :=
  match file with
  | Some data => list_to_set (pmids data)
  | None => ∅
  end.

(** Scenario: the first source returns the full text of "333". *)
Definition pmc_has_text : FetchEnv :=
  {| existing_download := None;
     adapter := fun source_name =>
       if String.eqb source_name "pubmed_central"
       then Returned (Some (<["full_text" := PStr "full text"]> enriched_333))
       else Raised |}.

(** Scenario: the first two sources fail and the third has the text. *)
Definition sci_hub_has_text : FetchEnv :=
  {| existing_download := None;
     adapter := fun source_name =>
       if String.eqb source_name "pubmed_central" then Raised
       else if String.eqb source_name "arxiv" then Returned None
       else Returned (Some (<["full_text" := PStr "full text"]> enriched_333)) |}.

(** The full text of "333" is fetched, stored and put on the queue as an
    ocr item, which the OCR worker takes and hands to the chunking. *)
Definition chunked_333 : State :=
  _ocr_worker_item
    (_ocr_worker_get
       (_fulltext_worker_stored
          (_fulltext_worker_downloaded pmc_has_text download_started))).

(** Scenario: the index of that run is saved, the process restarts and
    the search finds "333" again. *)
Definition restarted : State :=
  enqueue_articles "cannabinoids" "cbd formulation"
    (_extract_article_data <$> [extracted (Some "333") "title"])
    (initial (_load_processed_index
                (Some (_save_processed_index (processed_pmids chunked_333)
                         "2024-06-02T00:00:00")))).

(** No usable record of an earlier download. *)
Definition not_cached (fenv : FetchEnv) : Prop :=
  match existing_download fenv with
  | Some existing_text => dict_truthy existing_text = false
  | None => True
  end.

End Pipeline.

(* ===================================================================== *)
(** * PubMedScraper.search_articles *)
(* ===================================================================== *)

Module Scraper.
Import Py Pipeline.
Local Open Scope Z_scope.

Section SearchArticles.
(** The answer of [_fetch_article_details] for a batch of PMIDs; the
    helper catches every exception and returns a list. *)
Variable _fetch_article_details : list string -> list Article.

(** The slices [pmids[i:i + retmax]] passed to [_fetch_article_details],
    in the order of the calls. *)
Definition fetched_batches (pmids : list string) (retmax : Z) : result (list (list string)) :=
  match range 0 (len pmids) retmax with
  | Ok starts => Ok ((fun i => slice pmids i (i + retmax)) <$> starts)
  | Raise e => Raise e
  end.

(** [search_articles], from the answer [pmids] of [_search_pmids] on. *)
Definition search_articles (pmids : list string) (retmax : Z) : list Article :=
  if bool_decide (pmids = []) then []
  else
    match range 0 (len pmids) retmax with
    | Ok starts =>
        fold_left
          (fun articles i =>
             let batch_pmids := slice pmids i (i + retmax) in
             articles ++ _fetch_article_details batch_pmids)
          starts []
    | Raise _ => []                    (* except Exception: return [] *)
    end.
End SearchArticles.

(** A fetch that answers one record per requested PMID. *)
Definition one_record_each (batch : list string) : list Article :=
  (fun p => found (Some p)) <$> batch.

End Scraper.

(* ===================================================================== *)
(** * The RSS worker *)
(* ===================================================================== *)

Module Publication.
Import Py GitManager.
Local Open Scope Z_scope.

Definition six_hours : Z := 21600 * 1000000.

(** [_should_generate_rss]: never generated, or more than six hours ago. *)
Definition _should_generate_rss (last_rss_generation : option datetime)
    (clock : datetime) : bool :=
  match last_rss_generation with
  | None => true
  | Some last => six_hours <? clock - last
  end.

(** [RSSGenerator._commit_rss_feeds(feeds)]: the items of the feed files
    are counted for the commit message; when a file cannot be read the
    exception is caught and nothing is committed. *)
Definition _commit_rss_feeds (env : Env) (feeds_readable : bool)
    (git : GitManager.t) : GitManager.t * list (GitOp * bool) :=
  if feeds_readable then
    let r := force_commit_and_push env git in (after r, ops r)
  else (git, []).

(** [RSSGenerator.generate_rss_feeds(commit_to_git)], from the list
    [feeds] of the files that were written on. *)
Definition generate_rss_feeds (env : Env) (feeds_readable : bool)
    (git : GitManager.t) (feeds : list string) (commit_to_git : bool) :
    list string * (GitManager.t * list (GitOp * bool)) :=
  if commit_to_git && negb (bool_decide (feeds = [])) then
    (feeds, _commit_rss_feeds env feeds_readable git)
  else (feeds, (git, [])).

(** What one iteration of [_rss_worker] reads from outside: the clock of
    the check, the feeds that get written, the answers of git during the
    two calls and the clock that stamps [last_rss_generation]. *)
Record RssEnv := mkRssEnv {
  check_clock : datetime;
  written_feeds : list string;
  feeds_readable : bool;
  publish_env : Env;
  generation_stamp : datetime;
  record_env : Env
}.

(** The attributes of [BackgroundProcessor] that the RSS worker uses. *)
Record t := mk {
  git_manager : GitManager.t;
  last_rss_generation : option datetime
}.

(** The body of the loop of [_rss_worker], up to the sleep. *)
Definition _rss_worker_iteration (e : RssEnv) (self : t) : t * list (GitOp * bool) :=
  if _should_generate_rss (last_rss_generation self) (check_clock e) then
    let '(feeds, (git, log)) :=
      generate_rss_feeds (publish_env e) (feeds_readable e) (git_manager self)
        (written_feeds e) true in
    if negb (bool_decide (feeds = [])) then
      let r := commit_and_push_if_needed (record_env e) git "rss_update" (len feeds) true in
      ({| git_manager := after r;
          last_rss_generation := Some (generation_stamp e) |}, log ++ ops r)
    else
      ({| git_manager := git; last_rss_generation := last_rss_generation self |}, log)
  else (self, []).

Definition commit_attempts (log : list (GitOp * bool)) : list bool :=
  omap (fun o => if decide (o.1 = GitCommit) then Some o.2 else None) log.

Definition hourly_check (clock : datetime) (feeds : list string) : RssEnv :=
  {| check_clock := clock; written_feeds := feeds; feeds_readable := true;
     publish_env := all_ok clock; generation_stamp := clock + 1;
     record_env := all_ok (clock + 2) |}.

(** The ordinary publication: [force_commit_and_push] commits and pushes
    the feeds, so that the forced 'rss_update' call that follows finds a
    clean working tree. *)
Definition ordinary_publication (clock : datetime) (feeds : list string) : RssEnv :=
  {| check_clock := clock; written_feeds := feeds; feeds_readable := true;
     publish_env := answers all_exit_ok clock (clock + 1);
     generation_stamp := clock + 2;
     record_env := answers nothing_staged (clock + 3) (clock + 4) |}.

End Publication.

(* ===================================================================== *)
(** * Properties of the commit/push cadence *)
(* ===================================================================== *)

Module GitManagerSpec.
Import GitManager.
Local Open Scope Z_scope.

Lemma heartbeat_due_spec self clock :
  _is_hourly_push_needed self clock = true <-> heartbeat_due self clock.
Proof.
  unfold _is_hourly_push_needed, heartbeat_due.
  destruct (last_push_time self) as [last|]; [apply Z.ltb_lt | tauto].
Qed.

Lemma should_commit_unlisted stage count :
  commit_conditions count !! stage = None ->
  _should_commit stage count false = false.
Proof. intros H. unfold _should_commit. by rewrite H. Qed.

(** Shape of the subprocess log of every call. *)
Lemma ops_shape env self stage count force :
  let r := commit_and_push_if_needed env self stage count force in
  ops r = [] \/
  ops r = [(GitAdd, git_add_ok env); (GitCommit, git_commit_ok env)] \/
  (git_commit_ok env = true /\
   ops r = [(GitAdd, git_add_ok env); (GitCommit, true); (GitPush, git_push_ok env)]).
Proof.
  unfold commit_and_push_if_needed.
  destruct (_should_commit stage count force); simpl; [|by left].
  destruct (git_commit_ok env) eqn:Hc; simpl; [|by right; left].
  destruct (_should_push _ _ _ _ _); [|by right; left].
  destruct (git_push_ok env); simpl; right; right; done.
Qed.

(** The stage name 'hourly' is a key of the push table only: without the
    force flag a call under this name stops at the commit decision. *)
Lemma hourly_stage_stops_before_commit env self count :
  commit_and_push_if_needed env self "hourly" count false = mkResult false self [].
Proof. reflexivity. Qed.

(** C1, as stated, fails: with no push ever made, recording the 7th
    metadata item pushes nothing although every subprocess would succeed. *)
Lemma heartbeat_any_stage_counterexample :
  ~ (forall env self stage count,
       git_commit_ok env = true -> git_push_ok env = true ->
       heartbeat_due self (now env) ->
       pushed (commit_and_push_if_needed env self stage count false) = true).
Proof.
  intros H.
  specialize (H (all_ok 0) init "metadata" 7 eq_refl eq_refl I).
  vm_compute in H. discriminate H.
Qed.

(** C1 (amended): the elapsed-time condition is read only under the stage
    name 'hourly'. Without the force flag, [_should_push] for 'hourly' holds
    exactly when no push has succeeded yet or more than one hour has passed
    since the last successful one; for metadata, abstract, fulltext and ocr
    it is the modulo condition alone (50, 25, 10, 5), and for every stage
    other than 'hourly' it does not depend on the time of the last push. *)
Theorem heartbeat_read_only_for_hourly_stage :
  forall (self : t) (clock : datetime) (count : Z),
    (_should_push self clock "hourly" count false = true <-> heartbeat_due self clock) /\
    _should_push self clock "metadata" count false = (count mod 50 =? 0) /\
    _should_push self clock "abstract" count false = (count mod 25 =? 0) /\
    _should_push self clock "fulltext" count false = (count mod 10 =? 0) /\
    _should_push self clock "ocr" count false = (count mod 5 =? 0) /\
    (forall stage self' clock', stage <> "hourly" ->
       _should_push self clock stage count false =
       _should_push self' clock' stage count false).
Proof.
  intros self clock count. repeat split.
  - intros H. by apply heartbeat_due_spec.
  - intros H. by apply heartbeat_due_spec in H.
  - intros stage self' clock' Hne.
    unfold _should_push, push_conditions. simpl.
    rewrite !lookup_insert. repeat case_decide; subst; done.
Qed.

(** C9: in every call the commit is attempted before the push; when the
    commit fails no push is attempted, false is returned and the instance is
    unchanged; when the push fails after a successful commit, the commit
    stays recorded: commit_count is one more than before, exactly as after a
    successful push, and only last_push_time is left as it was. *)
Theorem commit_before_push_no_rollback :
  forall (env : Env) (self : t) (stage : string) (count : Z) (force : bool),
    let r := commit_and_push_if_needed env self stage count force in
    (forall i b, ops r !! i = Some (GitPush, b) ->
       exists j, (j < i)%nat /\ ops r !! j = Some (GitCommit, true)) /\
    (git_commit_ok env = false ->
       attempted GitPush r = false /\ returned r = false /\ after r = self) /\
    (git_commit_ok env = true -> attempted GitPush r = true ->
     git_push_ok env = false ->
       returned r = false /\
       committed r = true /\
       commit_count (after r) = commit_count self + 1 /\
       last_push_time (after r) = last_push_time self /\
       forall env', git_commit_ok env' = true -> git_push_ok env' = true ->
         attempted GitPush (commit_and_push_if_needed env' self stage count force) = true ->
         commit_count (after (commit_and_push_if_needed env' self stage count force)) =
         commit_count (after r)).
Proof.
  intros env self stage count force r.
  split; [|split].
  - intros i b Hi.
    destruct (ops_shape env self stage count force) as [H|[H|[Hc H]]];
      fold r in H; rewrite H in Hi.
    + done.
    + destruct i as [|[|[|i]]]; simplify_eq/=.
    + destruct i as [|[|[|i]]]; simplify_eq/=.
      exists 1%nat. split; [lia | by rewrite H].
  - intros Hc. subst r. unfold commit_and_push_if_needed.
    destruct (_should_commit stage count force); [|done].
    rewrite Hc. done.
  - intros Hc Hp Hf. subst r. revert Hp.
    unfold commit_and_push_if_needed.
    destruct (_should_commit stage count force); [|done].
    rewrite Hc. simpl.
    destruct (_should_push _ _ _ _ _); [|done].
    rewrite Hf. simpl. intros _.
    repeat split; try done.
    intros env' Hc' Hp'. rewrite Hc'. simpl.
    destruct (_should_push _ _ _ _ _); [|done].
    rewrite Hp'. done.
Qed.

(** C10: for a stage name that is not a key of the commit table (such as
    'rss_update'), a call without the force flag runs no subprocess, leaves
    the instance unchanged and returns false, whatever the count; with the
    force flag the commit is attempted. *)
Theorem unlisted_stage_needs_force :
  forall (env : Env) (self : t) (stage : string) (count : Z),
    commit_conditions count !! stage = None ->
    commit_and_push_if_needed env self stage count false = mkResult false self [] /\
    attempted GitCommit (commit_and_push_if_needed env self stage count true) = true.
Proof.
  intros env self stage count H. split.
  - unfold commit_and_push_if_needed.
    by rewrite (should_commit_unlisted _ _ H).
  - unfold commit_and_push_if_needed. simpl.
    destruct (git_commit_ok env); simpl; [|done].
    destruct (git_push_ok env); done.
Qed.

Lemma unlisted_stage_needs_force_witness :
  commit_and_push_if_needed (all_ok 0) init "rss_update" 10 false = mkResult false init [] /\
  attempted GitCommit (commit_and_push_if_needed (all_ok 0) init "rss_update" 10 true) = true.
Proof. apply (unlisted_stage_needs_force (all_ok 0) init "rss_update" 10). reflexivity. Defined.

End GitManagerSpec.

(* ===================================================================== *)
(** * Properties of the chunker *)
(* ===================================================================== *)

Module ChunkerSpec.
Import Py Chunker.
Local Open Scope Z_scope.

(** ** Words produced by [split] *)

Lemma split_words s : Forall is_word (split s).
Proof.
  induction s as [|c s IH]; simpl; [constructor|].
  destruct (isspace c) eqn:Hc; [done|].
  destruct (starts_word s) eqn:Hs.
  - destruct (split s) as [|w ws]; inversion IH as [|? ? [Hw1 Hw2] Hws]; subst.
    + repeat constructor; simpl; by rewrite Hc.
    + constructor; [|done]. split; simpl; by rewrite ?Hc, ?Hw2.
  - constructor; [|done]. split; simpl; by rewrite Hc.
Qed.

Lemma length_append (a b : string) :
  String.length (a ++ b) = (String.length a + String.length b)%nat.
Proof. induction a as [|c a IH]; simpl; [done|by rewrite IH]. Qed.

Lemma word_nonempty w : is_word w -> (1 <= String.length w)%nat.
Proof. intros [H _]. destruct w; simpl in *; [done|lia]. Qed.

Lemma lstrip_word_prefix w s : is_word w -> lstrip (w ++ s) = (w ++ s)%string.
Proof. intros [H _]. destruct w as [|c w]; simpl in *; [done|]. by destruct (isspace c). Qed.

Lemma rstrip_nonempty_fix c s :
  rstrip s = s -> s <> EmptyString -> rstrip (String c s) = String c s.
Proof. intros H Hne. simpl. rewrite H. by destruct s. Qed.

Lemma rstrip_word w : is_word w -> rstrip w = w.
Proof.
  intros [_ H]. induction w as [|c w IH]; [done|].
  simpl in H. apply andb_prop in H as [Hc Hw].
  simpl. rewrite (IH Hw). destruct w; [|done].
  by destruct (isspace c).
Qed.

Lemma rstrip_app a b :
  rstrip b = b -> b <> EmptyString -> rstrip (a ++ b) = (a ++ b)%string.
Proof.
  intros H Hne. induction a as [|c a IH]; [done|].
  simpl String.append. apply rstrip_nonempty_fix; [done|].
  destruct a; simpl; [done|discriminate].
Qed.

Lemma join_words_nonempty w ws :
  Forall is_word (w :: ws) -> join " " (w :: ws) <> EmptyString.
Proof.
  intros H. inversion H as [|? ? [Hw _] _]; subst.
  destruct w as [|c w]; [done|]. destruct ws; simpl; discriminate.
Qed.

Lemma rstrip_join ws : Forall is_word ws -> rstrip (join " " ws) = join " " ws.
Proof.
  induction ws as [|w ws IH]; intros H; [done|].
  inversion H as [|? ? Hw Hws]; subst.
  destruct ws as [|w' ws]; [by apply rstrip_word|].
  change (join " " (w :: w' :: ws)) with (w ++ " " ++ join " " (w' :: ws))%string.
  apply rstrip_app; [|discriminate].
  apply (rstrip_nonempty_fix " "); [by apply IH|by apply join_words_nonempty].
Qed.

Lemma strip_join ws : Forall is_word ws -> strip (join " " ws) = join " " ws.
Proof.
  intros H. unfold strip.
  assert (lstrip (join " " ws) = join " " ws) as ->; [|by apply rstrip_join].
  destruct ws as [|w ws]; [done|]. inversion H as [|? ? Hw Hws]; subst.
  destruct ws as [|w' ws].
  - destruct Hw as [Hw _]. destruct w as [|c w]; simpl in *; [done|].
    by destruct (isspace c).
  - by apply lstrip_word_prefix.
Qed.

Lemma length_join ws :
  Forall is_word ws -> (length ws <= String.length (join " " ws))%nat.
Proof.
  induction ws as [|w ws IH]; intros H; [simpl; lia|].
  inversion H as [|? ? Hw Hws]; subst. specialize (IH Hws).
  pose proof (word_nonempty _ Hw).
  destruct ws as [|w' ws]; [simpl; lia|].
  change (join " " (w :: w' :: ws)) with (w ++ " " ++ join " " (w' :: ws))%string.
  rewrite !length_append. simpl in *. lia.
Qed.

(** ** Slices and ranges *)

Lemma len_slice {A} (l : list A) i n :
  0 <= i <= len l -> 0 <= n -> len (slice l i (i + n)) = Z.min n (len l - i).
Proof.
  intros Hi Hn. unfold slice, adjust_index, len in *.
  rewrite length_take, length_drop.
  destruct (Z.ltb_spec i 0), (Z.ltb_spec (i + n) 0); lia.
Qed.

Lemma slice_sublist {A} (P : A -> Prop) (l : list A) i j :
  Forall P l -> Forall P (slice l i j).
Proof. intros H. unfold slice. by apply Forall_take, Forall_drop. Qed.

Lemma range_positive_step stop step :
  0 < step ->
  range 0 stop step =
  Ok (map (fun k : nat => Z.of_nat k * step)
          (seq 0 (Z.to_nat (range_length 0 stop step)))).
Proof.
  intros H. unfold range.
  destruct (Z.eqb_spec step 0); [lia|]. done.
Qed.

Lemma range_index_bound stop step (k : nat) :
  0 < step -> Z.of_nat k < range_length 0 stop step -> Z.of_nat k * step < stop.
Proof.
  intros Hs Hk. unfold range_length in Hk.
  destruct (Z.ltb_spec 0 step); [|lia].
  destruct (Z.ltb_spec 0 stop); [|lia].
  assert (Z.of_nat k <= (stop - 0 - 1) / step) as Hle by lia.
  assert (Z.of_nat k * step <= (stop - 0 - 1) / step * step) by nia.
  pose proof (Z.mul_div_le (stop - 0 - 1) step ltac:(lia)). lia.
Qed.

(** ** The loop *)

Section Loop.
Variables (words : list string) (pmid : string) (chunk_size : Z).

Lemma long_enough_spec t : long_enough t = true <-> 50 < strlen (strip t).
Proof. apply Z.ltb_lt. Qed.

(** The texts of the chunks are the texts of the windows that pass the
    length test, in loop order. *)
Lemma loop_texts starts acc :
  text <$> fold_left (loop_body words pmid chunk_size) starts acc =
  (text <$> acc) ++
  filter (fun t => 50 < strlen (strip t)) (chunk_text words chunk_size <$> starts).
Proof.
  revert acc. induction starts as [|i starts IH]; intros acc; simpl.
  - by rewrite app_nil_r.
  - rewrite IH. unfold loop_body. rewrite filter_cons.
    destruct (long_enough _) eqn:Hl.
    + rewrite decide_True by by apply long_enough_spec.
      by rewrite fmap_app, <- app_assoc.
    + rewrite decide_False; [done|].
      rewrite <- long_enough_spec. by rewrite Hl.
Qed.

(** When every window passes the test, chunk k is window k. *)
Lemma loop_all_kept starts acc :
  Forall (fun i => long_enough (chunk_text words chunk_size i) = true) starts ->
  fold_left (loop_body words pmid chunk_size) starts acc =
  acc ++ imap (fun k i => make_chunk words pmid chunk_size (length acc + k) i) starts.
Proof.
  revert acc. induction starts as [|i starts IH]; intros acc H; simpl.
  - by rewrite app_nil_r.
  - inversion H as [|? ? Hi Hs]; subst.
    unfold loop_body at 2. rewrite Hi, (IH _ Hs), <- app_assoc. simpl.
    rewrite Nat.add_0_r. do 2 f_equal.
    apply imap_ext. intros k x _. simpl. rewrite length_app. simpl.
    f_equal. lia.
Qed.
End Loop.

(** A window that holds more than 50 words passes the length test. *)
Lemma many_words_long_enough text chunk_size i :
  0 <= i <= len (split text) -> 0 <= chunk_size ->
  50 < Z.min chunk_size (len (split text) - i) ->
  long_enough (chunk_text (split text) chunk_size i) = true.
Proof.
  intros Hi Hc Hmin. apply long_enough_spec.
  unfold chunk_text, chunk_words.
  assert (Forall is_word (slice (split text) i (i + chunk_size))) as Hw
    by apply slice_sublist, split_words.
  rewrite (strip_join _ Hw).
  pose proof (length_join _ Hw) as Hlen.
  pose proof (len_slice (split text) i chunk_size Hi Hc) as Hs.
  unfold strlen, len in *. lia.
Qed.

(** With the defaults, chunk [j] is the window that starts at word 800 j. *)
Lemma default_chunk_at text pmid chunks (j : nat) c :
  _create_rag_chunks text pmid 1000 200 = Ok chunks ->
  chunks !! j = Some c ->
  c = make_chunk (split text) pmid 1000 j (Z.of_nat j * 800) /\
  Z.of_nat j * 800 < len (split text).
Proof.
  unfold _create_rag_chunks. change (1000 - 200) with 800.
  rewrite range_positive_step by lia.
  set (words := split text). set (n := len words).
  set (f := fun k : nat => Z.of_nat k * 800).
  intros Hr Hj. inversion Hr as [Hc]; clear Hr.
  destruct (Z.to_nat (range_length 0 n 800)) as [|m] eqn:Hm.
  { simpl in Hc. subst chunks. done. }
  assert (forall k : nat, (k <= m)%nat -> Z.of_nat k * 800 < n) as Hbound.
  { intros k Hk. apply range_index_bound; lia. }
  rewrite seq_S, map_app, fold_left_app in Hc. simpl in Hc.
  rewrite loop_all_kept in Hc; cycle 1.
  { apply Forall_forall. intros i Hi.
    apply list_elem_of_In, in_map_iff in Hi as (k & <- & Hk).
    apply in_seq in Hk. specialize (Hbound (S k) ltac:(lia)).
    apply many_words_long_enough; unfold f; fold words; fold n; lia. }
  simpl in Hc.
  assert (forall k x, imap (fun k i => make_chunk words pmid 1000 k i)
            (map f (seq 0 m)) !! k = Some x ->
          x = make_chunk words pmid 1000 k (f k) /\ (k < m)%nat) as Hfront.
  { intros k x Hk. rewrite list_lookup_imap in Hk.
    change (map f (seq 0 m)) with (f <$> seq 0 m) in Hk.
    rewrite list_lookup_fmap in Hk.
    destruct (seq 0 m !! k) as [k'|] eqn:Hs; [|done].
    apply lookup_seq in Hs as [-> Hs]. simpl in Hk. by inversion Hk. }
  unfold loop_body in Hc.
  destruct (long_enough _) in Hc; subst chunks.
  - destruct (decide (j < m)%nat) as [Hlt|Hge].
    + rewrite lookup_app_l in Hj by (rewrite length_imap, length_map, length_seq; lia).
      apply Hfront in Hj as [-> ?]. split; [done|]. apply Hbound. lia.
    + rewrite lookup_app_r in Hj by (rewrite length_imap, length_map, length_seq; lia).
      rewrite !length_imap, !length_map, !length_seq in Hj.
      destruct (j - m)%nat as [|?] eqn:Hjm; [|done].
      assert (j = m) as -> by lia. simpl in Hj. inversion Hj.
      split; [done|]. apply Hbound. lia.
  - apply Hfront in Hj as [-> ?]. split; [done|]. apply Hbound. lia.
Qed.

(** ** Non-positive stride *)

(** C5, as stated, fails: with overlap = chunk_size the call does not
    return a chunk list, it raises ValueError. *)
Lemma zero_stride_counterexample :
  ~ (forall text pmid chunk_size overlap,
       chunk_size <= overlap ->
       exists chunks, _create_rag_chunks text pmid chunk_size overlap = Ok chunks).
Proof.
  intros H. destruct (H "alpha beta" "1" 5 5 ltac:(lia)) as [chunks Hc].
  vm_compute in Hc. discriminate Hc.
Qed.

(** C5 (amended): the chunker has no stride guard of its own and never
    loops forever. When overlap > chunk_size the loop runs zero times and
    the empty chunk list is returned; when overlap = chunk_size the call
    raises ValueError. *)
Theorem nonpositive_stride_outcome :
  forall (text pmid : string) (chunk_size overlap : Z),
    chunk_size <= overlap ->
    _create_rag_chunks text pmid chunk_size overlap =
    if chunk_size =? overlap then Raise ValueError else Ok [].
Proof.
  intros text pmid chunk_size overlap H.
  unfold _create_rag_chunks, range, range_length.
  destruct (Z.eqb_spec chunk_size overlap) as [->|Hne].
  - by rewrite Z.sub_diag.
  - destruct (Z.eqb_spec (chunk_size - overlap) 0); [lia|].
    destruct (Z.ltb_spec 0 (chunk_size - overlap)); [lia|].
    destruct (Z.ltb_spec (len (split text)) 0); [unfold len in *; lia|].
    done.
Qed.

Lemma nonpositive_stride_outcome_witness :
  _create_rag_chunks "alpha beta gamma" "1" 2 5 = Ok [].
Proof. apply (nonpositive_stride_outcome "alpha beta gamma" "1" 2 5). lia. Defined.

(** ** The 50-character test *)

(** C6, as stated, fails: a window whose trimmed text has exactly 50
    characters is not emitted. *)
Lemma window_of_50_chars_counterexample :
  ~ (forall txt pmid chunk_size overlap chunks w,
       _create_rag_chunks txt pmid chunk_size overlap = Ok chunks ->
       w ∈ window_texts txt chunk_size overlap ->
       50 <= strlen (strip w) ->
       w ∈ text <$> chunks).
Proof.
  intros H.
  specialize (H fifty_chars "1" 1000 200 [] fifty_chars).
  assert (fifty_chars ∈ text <$> @nil Chunk) as Hin; [|by inversion Hin].
  apply H.
  - vm_compute. reflexivity.
  - assert (window_texts fifty_chars 1000 200 = [fifty_chars]) as ->
      by (vm_compute; reflexivity).
    apply list_elem_of_here.
  - vm_compute. discriminate.
Qed.

(** C6 (amended): when the loop runs, the chunks are exactly the windows
    whose trimmed text is longer than 50 characters (51 or more), in loop
    order; a window of 50 characters or fewer is dropped, so no emitted
    chunk has a trimmed text shorter than 51 characters. *)
Theorem chunks_are_windows_longer_than_50 :
  forall (txt pmid : string) (chunk_size overlap : Z) (chunks : list Chunk),
    _create_rag_chunks txt pmid chunk_size overlap = Ok chunks ->
    text <$> chunks =
      filter (fun t => 50 < strlen (strip t)) (window_texts txt chunk_size overlap) /\
    Forall (fun c => 51 <= strlen (strip (Chunker.text c))) chunks.
Proof.
  intros txt pmid chunk_size overlap chunks H.
  assert (text <$> chunks =
          filter (fun t => 50 < strlen (strip t)) (window_texts txt chunk_size overlap))
    as Heq.
  { unfold _create_rag_chunks in H. unfold window_texts, window_starts.
    destruct (range 0 (len (split txt)) (chunk_size - overlap)) as [starts|e];
      [|done].
    inversion H; subst. by rewrite loop_texts. }
  split; [done|].
  apply Forall_forall. intros c Hc.
  assert (text c ∈ text <$> chunks) as Ht by by apply list_elem_of_fmap_2.
  rewrite Heq in Ht. apply list_elem_of_filter in Ht as [Ht _]. lia.
Qed.

Lemma chunks_are_windows_longer_than_50_witness :
  text <$> [chunk_of_51] =
    filter (fun t => 50 < strlen (strip t)) (window_texts fifty_one_chars 1000 200) /\
  Forall (fun c => 51 <= strlen (strip (Chunker.text c))) [chunk_of_51].
Proof.
  apply (chunks_are_windows_longer_than_50 fifty_one_chars "1" 1000 200 [chunk_of_51]).
  vm_compute. reflexivity.
Defined.

(** ** Start and end words with the defaults *)

(** C7, as stated, fails: for a text of 900 words the two chunks are
    words 0..900 and 800..900, and 900 - 200 is not 800. *)
Lemma clamped_end_word_counterexample :
  ~ (forall text pmid chunks (i : nat) c d,
       _create_rag_chunks text pmid 1000 200 = Ok chunks ->
       chunks !! i = Some c -> chunks !! S i = Some d ->
       end_word c - 200 = start_word d).
Proof.
  intros H.
  destruct (_create_rag_chunks (repeat_word "ab" 900) "1" 1000 200)
    as [chunks|e] eqn:Hr; [|vm_compute in Hr; discriminate Hr].
  assert (exists c d, chunks !! 0%nat = Some c /\ chunks !! 1%nat = Some d /\
                      end_word c = 900 /\ start_word d = 800)
    as (c & d & Hc & Hd & Hend & Hstart).
  { vm_compute in Hr. inversion Hr; subst; clear Hr.
    do 2 eexists. repeat split; reflexivity. }
  specialize (H _ _ _ _ _ _ Hr Hc Hd). lia.
Qed.

(** C7 (amended): with chunk_size 1000 and overlap 200, consecutive
    chunks start 800 words apart, and end_word - 200 of a chunk is the
    start_word of the next one whenever the chunk is a full window
    (word_count = 1000), in particular whenever the next chunk is not the
    last one. *)
Theorem default_consecutive_chunks :
  forall (text pmid : string) (chunks : list Chunk) (i : nat) (c d : Chunk),
    _create_rag_chunks text pmid 1000 200 = Ok chunks ->
    chunks !! i = Some c ->
    chunks !! S i = Some d ->
    start_word d = start_word c + 800 /\
    (word_count c = 1000 -> end_word c - 200 = start_word d) /\
    ((S (S i) < length chunks)%nat -> end_word c - 200 = start_word d).
Proof.
  intros txt pmid chunks i c d Hr Hc Hd.
  destruct (default_chunk_at _ _ _ _ _ Hr Hc) as [-> Hi].
  destruct (default_chunk_at _ _ _ _ _ Hr Hd) as [-> Hi'].
  simpl. split; [lia|]. split.
  - unfold chunk_words. rewrite len_slice by (unfold len in *; lia). lia.
  - intros Hlen. apply lookup_lt_is_Some in Hlen as [e He].
    destruct (default_chunk_at _ _ _ _ _ Hr He) as [_ Hi'']. lia.
Qed.

Lemma default_consecutive_chunks_witness :
  exists c d,
    _create_rag_chunks (repeat_word "ab" 900) "1" 1000 200 = Ok [c; d] /\
    start_word d = start_word c + 800.
Proof.
  destruct (_create_rag_chunks (repeat_word "ab" 900) "1" 1000 200)
    as [chunks|e] eqn:Hr; [|vm_compute in Hr; discriminate Hr].
  destruct chunks as [|c [|d [|e chunks]]];
    try (vm_compute in Hr; discriminate Hr).
  exists c, d. split; [reflexivity|].
  apply (default_consecutive_chunks (repeat_word "ab" 900) "1" [c; d] 0 c d Hr);
    reflexivity.
Defined.

End ChunkerSpec.


(* ===================================================================== *)
(** * Properties of the worker loops *)
(* ===================================================================== *)

Module PipelineSpec.
Import Py Pipeline.

(** ** Search worker *)

Lemma new_pmid_fresh index a :
  new_pmid index a = if fresh_id index a then Some (pmid_string a) else None.
Proof.
  unfold new_pmid, fresh_id, pmid_string. destruct (get a "pmid"); try done.
  simpl. destruct (String.eqb s EmptyString); simpl; [done|].
  destruct (decide (s ∈ index)) as [Hin|Hin].
  - rewrite (bool_decide_eq_true_2 _ Hin). simpl.
    by rewrite bool_decide_eq_false_2 by (intros Hn; by apply Hn).
  - rewrite (bool_decide_eq_false_2 _ Hin). simpl.
    by rewrite bool_decide_eq_true_2.
Qed.

Lemma enqueue_articles_spec category term articles s :
  enqueue_articles category term articles s =
  {| processing_queue :=
       processing_queue s ++
       (metadata_item category term <$>
          filter (fun a => fresh_id (processed_pmids s) a = true) articles);
     processed_pmids := processed_pmids s;
     calls := calls s;
     processing_task := processing_task s;
     fulltext_task := fulltext_task s;
     ocr_task := ocr_task s |}.
Proof.
  unfold enqueue_articles. revert s.
  induction articles as [|a articles IH]; intros s; simpl.
  - rewrite app_nil_r. by destruct s.
  - rewrite filter_cons. unfold enqueue_article at 2. rewrite new_pmid_fresh.
    destruct (fresh_id (processed_pmids s) a) eqn:Hf; rewrite IH; simpl.
    + by rewrite <- app_assoc.
    + done.
Qed.

Lemma extracted_pmid x : get (_extract_article_data x) "pmid" = opt_str (pmid_text x).
Proof. unfold get, _extract_article_data. simpl. by rewrite lookup_insert. Qed.

(** For a parsed record the truth test of the guard adds nothing to the
    membership test. *)
Lemma parsed_fresh_absent index x :
  parsed x ->
  fresh_id index (_extract_article_data x) = absent_id index (_extract_article_data x).
Proof.
  intros Hp. unfold fresh_id, absent_id. rewrite extracted_pmid.
  unfold parsed in Hp. destruct (pmid_text x) as [p|]; simpl; [|done].
  destruct (String.eqb_spec p EmptyString) as [->|Hne]; [done|]. done.
Qed.

Lemma filter_fresh_absent index xs :
  Forall parsed xs ->
  filter (fun a => fresh_id index a = true) (_extract_article_data <$> xs) =
  filter (fun a => absent_id index a = true) (_extract_article_data <$> xs).
Proof.
  induction 1 as [|x xs Hx _ IH]; [done|].
  rewrite fmap_cons, !filter_cons, IH.
  destruct (decide (fresh_id index (_extract_article_data x) = true)) as [Hf|Hf];
    rewrite (parsed_fresh_absent _ _ Hx) in Hf.
  - by rewrite decide_True.
  - by rewrite decide_False.
Qed.

(** C8: of the records that a search returns, exactly those whose
    identifier is absent from the dedup index are enqueued, in order, at
    stage metadata, each with its own record; so a record whose identifier
    is in the index is never enqueued, and the index itself is not
    changed. The records are those built by [_extract_article_data] from
    a parsed document. *)
Theorem search_enqueues_absent_records :
  forall (category term : string) (xs : list Extracted) (s : State),
    Forall parsed xs ->
    let articles := _extract_article_data <$> xs in
    let s' := enqueue_articles category term articles s in
    processing_queue s' = processing_queue s ++ enqueued s s' /\
    enqueued s s' =
      (metadata_item category term <$>
         filter (fun a => absent_id (processed_pmids s) a = true) articles) /\
    (forall it, it ∈ enqueued s s' ->
       stage it = "metadata" /\ (pmid it ∉ processed_pmids s) /\
       get (article it) "pmid" = PStr (pmid it)) /\
    processed_pmids s' = processed_pmids s.
Proof.
  intros category term xs s Hxs articles s'. subst articles s'.
  assert (enqueued s (enqueue_articles category term (_extract_article_data <$> xs) s) =
          metadata_item category term <$>
            filter (fun a => absent_id (processed_pmids s) a = true)
                   (_extract_article_data <$> xs)) as E.
  { rewrite enqueue_articles_spec. unfold enqueued. simpl.
    by rewrite drop_app_length, filter_fresh_absent. }
  rewrite E. split; [|split; [done|split]].
  - rewrite enqueue_articles_spec. simpl. by rewrite filter_fresh_absent.
  - intros it Hin. apply list_elem_of_fmap in Hin as (a & -> & Ha).
    apply list_elem_of_filter in Ha as [Hf _].
    unfold absent_id in Hf. unfold metadata_item, pmid_string. simpl.
    destruct (get a "pmid") as [|p| | |]; try done.
    apply bool_decide_eq_true in Hf. done.
  - by rewrite enqueue_articles_spec.
Qed.

Lemma search_enqueues_absent_records_witness :
  enqueued (initial {[ "111" ]})
    (enqueue_articles "cannabinoids" "cbd formulation"
       (_extract_article_data <$>
          [extracted (Some "111") "title"; extracted None "title";
           extracted (Some "222") "title"])
       (initial {[ "111" ]})) =
  [metadata_item "cannabinoids" "cbd formulation" (found (Some "222"))].
Proof.
  destruct (search_enqueues_absent_records "cannabinoids" "cbd formulation"
              [extracted (Some "111") "title"; extracted None "title";
               extracted (Some "222") "title"]
              (initial {[ "111" ]})) as (_ & H & _).
  - repeat constructor; discriminate.
  - rewrite H. vm_compute. reflexivity.
Defined.

(** ** Processing worker *)

Section Processing.
Variable heuristics : Article -> option Enrichment.

Lemma process_single_full_text a pa :
  _process_single_article heuristics a = Some pa ->
  pa !! "full_text" = a !! "full_text" /\ dict_truthy pa = true.
Proof.
  unfold _process_single_article.
  destruct (heuristics a) as [e|]; [|done].
  destruct (Qle_bool _ _); [|done].
  intros [= <-]. split.
  - by rewrite !lookup_insert_ne.
  - unfold dict_truthy. rewrite bool_decide_eq_false_2; [done|].
    apply insert_non_empty.
Qed.

Lemma process_articles_singleton a :
  process_articles heuristics [a] !! 0%nat = _process_single_article heuristics a.
Proof.
  unfold process_articles. simpl.
  destruct (_process_single_article heuristics a) as [pa|] eqn:Hp; [|done].
  apply process_single_full_text in Hp as [_ ->]. done.
Qed.

(** An item whose PMID is already in the index is dropped, whatever its
    stage tag. *)
Lemma processing_known_pmid s item :
  processing_task s = Holding item ->
  pmid item ∈ processed_pmids s ->
  _processing_worker_item heuristics s = set_processing_task Waiting s.
Proof.
  intros Ht Hin. unfold _processing_worker_item. rewrite Ht. simpl.
  by rewrite bool_decide_eq_true_2.
Qed.

(** The null signal of the enrichment step ends in the [except] clause
    of the loop. *)
Lemma processing_filtered s item :
  processing_task s = Holding item ->
  pmid item ∉ processed_pmids s ->
  _process_single_article heuristics (article item) = None ->
  _processing_worker_item heuristics s =
  call (LoggerError "processing" IndexError) (set_processing_task Waiting s).
Proof.
  intros Ht Hin Hp. unfold _processing_worker_item. rewrite Ht. simpl.
  rewrite bool_decide_eq_false_2 by done.
  by rewrite process_articles_singleton, Hp.
Qed.

Lemma processing_enriched s item pa :
  processing_task s = Holding item ->
  pmid item ∉ processed_pmids s ->
  _process_single_article heuristics (article item) = Some pa ->
  _processing_worker_item heuristics s =
  add_processed (pmid item)
    (put (fulltext_successor item pa)
       (call (StoreMetadataAndAbstract (pmid item) pa)
          (set_processing_task Waiting s))).
Proof.
  intros Ht Hin Hp. unfold _processing_worker_item. rewrite Ht. simpl.
  rewrite bool_decide_eq_false_2 by done.
  rewrite process_articles_singleton, Hp.
  apply process_single_full_text in Hp as [_ ->]. done.
Qed.

Lemma processing_not_holding s :
  (forall item, processing_task s <> Holding item) ->
  _processing_worker_item heuristics s = s.
Proof.
  intros H. unfold _processing_worker_item.
  destruct (processing_task s) as [|item| |]; try done. by destruct (H item).
Qed.
End Processing.

(** C3: when the enrichment step answers with the null signal for the
    item the processing worker has taken from the queue, the worker emits
    no successor, persists nothing and does not add the PMID to the index,
    yet the iteration ends in the loop's [except Exception] clause: the
    empty list returned by process_articles is indexed with [0], and the
    IndexError is logged as an error. *)
Theorem filtered_record_raises_index_error :
  forall (heuristics : Article -> option Enrichment) (s : State) (item : WorkItem),
    processing_task s = Holding item ->
    pmid item ∉ processed_pmids s ->
    _process_single_article heuristics (article item) = None ->
    let s' := _processing_worker_item heuristics s in
    processing_queue s' = processing_queue s /\
    processed_pmids s' = processed_pmids s /\
    calls s' = calls s ++ [LoggerError "processing" IndexError] /\
    processing_task s' = Waiting.
Proof.
  intros heuristics s item Ht Hin Hp s'. subst s'.
  by rewrite (processing_filtered _ _ _ Ht Hin Hp).
Qed.

Lemma filtered_record_raises_index_error_witness :
  let s' := _processing_worker_item low_relevance (found_and_taken "444") in
  processing_queue s' = [] /\
  processed_pmids s' = ∅ /\
  calls s' = [LoggerError "processing" IndexError] /\
  processing_task s' = Waiting.
Proof.
  apply (filtered_record_raises_index_error low_relevance
           (found_and_taken "444") metadata_item_444).
  - reflexivity.
  - vm_compute. set_solver.
  - reflexivity.
Defined.

(** ** Fulltext and ocr workers *)

Lemma fulltext_requeues_mismatch s item :
  fulltext_task s = Holding item ->
  stage item <> "fulltext" ->
  _fulltext_worker_item s = put item (set_fulltext_task Waiting s).
Proof.
  intros Ht Hne. unfold _fulltext_worker_item. rewrite Ht.
  destruct (String.eqb_spec (stage item) "fulltext"); done.
Qed.

Lemma fulltext_starts_download s item :
  fulltext_task s = Holding item ->
  stage item = "fulltext" ->
  _fulltext_worker_item s = set_fulltext_task (Downloading item) s.
Proof. intros Ht Hst. unfold _fulltext_worker_item. by rewrite Ht, Hst. Qed.

Lemma ocr_requeues_mismatch s item :
  ocr_task s = Holding item ->
  stage item <> "ocr" ->
  _ocr_worker_item s = put item (set_ocr_task Waiting s).
Proof.
  intros Ht Hne. unfold _ocr_worker_item. rewrite Ht.
  destruct (String.eqb_spec (stage item) "ocr"); done.
Qed.

Lemma try_sources_all_failed fenv srcs :
  Forall (fun source_name => adapter_failed (adapter fenv source_name)) srcs ->
  try_sources fenv srcs = None.
Proof.
  induction 1 as [|src srcs Hsrc _ IH]; simpl; [done|].
  destruct (adapter fenv src) as [|r]; [done|].
  simpl in Hsrc. by rewrite Hsrc.
Qed.

Lemma download_full_text_failed fenv a :
  fetch_fails fenv -> download_full_text fenv a = a.
Proof.
  intros [He Hs]. unfold download_full_text.
  by rewrite He, (try_sources_all_failed _ _ Hs).
Qed.

(** ** Lists of well-formed items *)

Lemma item_ok_mono index index' it :
  index ⊆ index' -> item_ok index it -> item_ok index' it.
Proof.
  unfold item_ok. intros Hsub [?|[(?&?&?)|(?&?)]]; [by left| |].
  - right; left. repeat split; [done| |done]. by apply Hsub.
  - right; right. split; [done|]. by apply Hsub.
Qed.

Lemma item_ok_advanced index it :
  item_ok index it -> advanced it -> pmid it ∈ index.
Proof. unfold item_ok, advanced. intros [[? _]|[(_&?&_)|(_&?)]] Hadv; done. Qed.

Lemma advanced_pmids_app q1 q2 :
  advanced_pmids (q1 ++ q2) = advanced_pmids q1 ++ advanced_pmids q2.
Proof. unfold advanced_pmids. by rewrite filter_app, fmap_app. Qed.

Lemma advanced_pmids_cons it q :
  advanced_pmids (it :: q) = advanced_pmids [it] ++ advanced_pmids q.
Proof. apply (advanced_pmids_app [it] q). Qed.

Lemma advanced_pmids_single it :
  advanced it -> advanced_pmids [it] = [pmid it].
Proof. intros H. unfold advanced_pmids. by rewrite filter_cons_True. Qed.

Lemma advanced_pmids_metadata q :
  Forall (fun it => stage it = "metadata") q -> advanced_pmids q = [].
Proof.
  unfold advanced_pmids. induction 1 as [|it q Hit _ IH]; [done|].
  rewrite filter_cons_False; [done|]. unfold advanced. rewrite Hit.
  intros Hne. by apply Hne.
Qed.

Lemma advanced_pmids_elem it q :
  it ∈ q -> advanced it -> pmid it ∈ advanced_pmids q.
Proof.
  intros Hin Hadv. unfold advanced_pmids. apply list_elem_of_fmap_2.
  by apply list_elem_of_filter.
Qed.

#[local] Instance advanced_pmids_perm : Proper ((≡ₚ) ==> (≡ₚ)) advanced_pmids.
Proof. intros q1 q2 H. unfold advanced_pmids. by rewrite H. Qed.

#[local] Instance good_perm index : Proper ((≡ₚ) ==> iff) (good index).
Proof. intros q1 q2 H. unfold good. by rewrite H. Qed.

Lemma good_mono index index' q : index ⊆ index' -> good index q -> good index' q.
Proof.
  intros Hsub [Hok Hnd]. split; [|done].
  eapply Forall_impl; [exact Hok|]. intros it. by apply item_ok_mono.
Qed.

Lemma good_drop index it q : good index (it :: q) -> good index q.
Proof.
  intros [Hok Hnd]. inversion Hok; subst. split; [done|].
  rewrite advanced_pmids_cons in Hnd. by apply NoDup_app in Hnd as (_ & _ & ?).
Qed.

Lemma good_head index it q : good index (it :: q) -> item_ok index it.
Proof. intros [Hok _]. by inversion Hok. Qed.

(** No other item past the metadata stage has the PMID of an item that is
    itself past the metadata stage. *)
Lemma good_head_unique index it q it' :
  good index (it :: q) -> advanced it -> it' ∈ q -> pmid it' = pmid it ->
  stage it' = "metadata".
Proof.
  intros [_ Hnd] Hadv Hin Hp.
  destruct (decide (stage it' = "metadata")) as [|Hne]; [done|]. exfalso.
  rewrite advanced_pmids_cons, advanced_pmids_single in Hnd by done.
  apply NoDup_cons in Hnd as [Hnotin _]. apply Hnotin.
  rewrite <- Hp. by apply advanced_pmids_elem.
Qed.

(** The item at the head is replaced by one with the same PMID. *)
Lemma good_swap index it it' q :
  good index (it :: q) -> advanced it -> pmid it' = pmid it ->
  item_ok index it' -> good index (it' :: q).
Proof.
  intros [Hok Hnd] Hadv Hp Hit'. inversion Hok; subst. split; [by constructor|].
  rewrite advanced_pmids_cons in Hnd |- *.
  rewrite advanced_pmids_single in Hnd by done.
  destruct (decide (advanced it')) as [Hadv'|Hadv'].
  - by rewrite advanced_pmids_single, Hp by done.
  - unfold advanced_pmids at 1. rewrite filter_cons_False by done. simpl.
    by apply NoDup_cons in Hnd as [_ ?].
Qed.

(** An item whose PMID was not in the index joins the list. *)
Lemma good_fresh index it q :
  good index q -> pmid it ∉ index -> item_ok ({[ pmid it ]} ∪ index) it ->
  good ({[ pmid it ]} ∪ index) (it :: q).
Proof.
  intros Hq Hnotin Hit.
  assert (forall p, p ∈ advanced_pmids q -> p ∈ index) as Hidx.
  { intros p Hp. apply list_elem_of_fmap in Hp as (it' & -> & Hit').
    apply list_elem_of_filter in Hit' as [Hadv Hit'].
    destruct Hq as [Hok _]. rewrite Forall_forall in Hok.
    eapply item_ok_advanced; eauto. }
  apply (good_mono index ({[ pmid it ]} ∪ index)) in Hq; [|set_solver].
  destruct Hq as [Hok Hnd]. split; [by constructor|].
  rewrite advanced_pmids_cons.
  destruct (decide (advanced it)) as [Hadv|Hadv].
  - rewrite advanced_pmids_single by done. simpl.
    apply NoDup_cons. split; [|done]. intros Hin. by apply Hnotin, Hidx.
  - unfold advanced_pmids at 1. by rewrite filter_cons_False by done.
Qed.

Lemma good_metadata index q news :
  good index q ->
  Forall (fun it => stage it = "metadata" /\ article it !! "full_text" = None) news ->
  good index (q ++ news).
Proof.
  intros [Hok Hnd] Hnews. split.
  - apply Forall_app. split; [done|].
    eapply Forall_impl; [exact Hnews|]. intros it ?. by left.
  - rewrite advanced_pmids_app, (advanced_pmids_metadata news), app_nil_r; [done|].
    eapply Forall_impl; [exact Hnews|]. by intros it [? _].
Qed.

Lemma extract_no_full_text x : _extract_article_data x !! "full_text" = None.
Proof. unfold _extract_article_data. simpl. by rewrite !lookup_insert_ne. Qed.

(** ** Effect of one transition *)

Lemma effect_refl s : effect s s.
Proof. by apply effect_moved. Qed.

(** Both sides list the same items: bring the moved item to the front. *)
Ltac same_items :=
  unfold live; simpl;
  repeat match goal with H : _ = _ |- _ => rewrite H end; simpl;
  rewrite <- ?Permutation_cons_append, <- ?Permutation_middle;
  reflexivity.

Section Transitions.
Variable heuristics : Article -> option Enrichment.

Lemma processing_get_effect s : effect s (_processing_worker_get s).
Proof.
  unfold _processing_worker_get, queue_get.
  destruct (processing_task s) eqn:Ht; try apply effect_refl.
  destruct (processing_queue s) as [|item rest] eqn:Hq; [apply effect_refl|].
  apply effect_moved; [same_items|done].
Qed.

Lemma fulltext_get_effect s : effect s (_fulltext_worker_get s).
Proof.
  unfold _fulltext_worker_get, queue_get.
  destruct (fulltext_task s) eqn:Ht; try apply effect_refl.
  destruct (processing_queue s) as [|item rest] eqn:Hq; [apply effect_refl|].
  apply effect_moved; [same_items|done].
Qed.

Lemma ocr_get_effect s : effect s (_ocr_worker_get s).
Proof.
  unfold _ocr_worker_get, queue_get.
  destruct (ocr_task s) eqn:Ht; try apply effect_refl.
  destruct (processing_queue s) as [|item rest] eqn:Hq; [apply effect_refl|].
  apply effect_moved; [same_items|done].
Qed.

Lemma processing_item_effect s : effect s (_processing_worker_item heuristics s).
Proof.
  destruct (processing_task s) as [|item| |] eqn:Ht;
    try (rewrite processing_not_holding; [apply effect_refl|by rewrite Ht]).
  destruct (decide (pmid item ∈ processed_pmids s)) as [Hin|Hin].
  { rewrite (processing_known_pmid _ _ _ Ht Hin).
    apply (effect_dropped _ _ item); [same_items|done]. }
  destruct (_process_single_article heuristics (article item)) as [pa|] eqn:Hp.
  - rewrite (processing_enriched _ _ _ _ Ht Hin Hp).
    apply process_single_full_text in Hp as [Hft _].
    apply (effect_enriched _ _ item pa
             (held (fulltext_task s) ++ held (ocr_task s) ++ processing_queue s));
      try done; clear Hft; same_items.
  - rewrite (processing_filtered _ _ _ Ht Hin Hp).
    apply (effect_dropped _ _ item); [same_items|done].
Qed.

Lemma fulltext_item_effect s : effect s (_fulltext_worker_item s).
Proof.
  unfold _fulltext_worker_item.
  destruct (fulltext_task s) as [|item| |] eqn:Ht; try apply effect_refl.
  destruct (negb _); (apply effect_moved; [same_items|done]).
Qed.

Lemma fulltext_downloaded_effect fenv s : effect s (_fulltext_worker_downloaded fenv s).
Proof.
  unfold _fulltext_worker_downloaded.
  destruct (fulltext_task s) as [|item|item|] eqn:Ht; try apply effect_refl.
  destruct (_ && _).
  - apply (effect_downloaded _ _ item (download_full_text fenv (article item))
             (held (processing_task s) ++ held (ocr_task s) ++ processing_queue s));
      try done; same_items.
  - apply (effect_dropped _ _ item); [same_items|done].
Qed.

Lemma fulltext_stored_effect s : effect s (_fulltext_worker_stored s).
Proof.
  unfold _fulltext_worker_stored.
  destruct (fulltext_task s) as [|item|item|item data] eqn:Ht; try apply effect_refl.
  apply effect_moved; [same_items|done].
Qed.

Lemma ocr_item_effect s : effect s (_ocr_worker_item s).
Proof.
  unfold _ocr_worker_item.
  destruct (ocr_task s) as [|item| |] eqn:Ht; try apply effect_refl.
  destruct (negb _).
  - apply effect_moved; [same_items|done].
  - apply (effect_dropped _ _ item); [same_items|done].
Qed.

Lemma search_effect category term xs s :
  effect s (enqueue_articles category term (_extract_article_data <$> xs) s).
Proof.
  rewrite enqueue_articles_spec.
  apply (effect_found _ _
           (metadata_item category term <$>
              filter (fun a => fresh_id (processed_pmids s) a = true)
                     (_extract_article_data <$> xs))); [| |done].
  - unfold live. simpl. by rewrite !app_assoc.
  - apply Forall_forall. intros it Hit.
    apply list_elem_of_fmap in Hit as (a & -> & Ha).
    apply list_elem_of_filter in Ha as [_ Ha].
    apply list_elem_of_fmap in Ha as (x & -> & _).
    split; [done|]. apply extract_no_full_text.
Qed.

Lemma step_effect s s' : step heuristics s s' -> effect s s'.
Proof.
  destruct 1; auto using search_effect, processing_get_effect,
    processing_item_effect, fulltext_get_effect, fulltext_item_effect,
    fulltext_downloaded_effect, fulltext_stored_effect, ocr_get_effect,
    ocr_item_effect.
Qed.
End Transitions.

(** ** Invariant of the reachable states *)

Lemma effect_good s s' :
  effect s s' -> inv s -> good (processed_pmids s') (live s').
Proof.
  intros Heff [Hgood Htask].
  destruct Heff as [Hl Hp|news Hl Hnews Hp|item Hl Hp
                   |item pa others Hl Hl' Hnew Hp Hft
                   |item data others Ht Hl Hl' Hp].
  - by rewrite Hp, Hl.
  - rewrite Hp, Hl. by apply good_metadata.
  - rewrite Hp. rewrite Hl in Hgood. by apply good_drop in Hgood.
  - rewrite Hp, Hl'. rewrite Hl in Hgood.
    assert (article item !! "full_text" = None) as Hnone.
    { destruct (good_head _ _ _ Hgood) as [[_ ?]|[(_&?&_)|(_&?)]]; done. }
    apply good_drop in Hgood.
    apply (good_fresh _ (fulltext_successor item pa)); [done|done|].
    right; left. simpl. split; [done|]. split; [|by rewrite Hft].
    apply elem_of_union. left. by apply elem_of_singleton.
  - rewrite Hp, Hl'. rewrite Hl in Hgood.
    assert (advanced item) as Hadv.
    { unfold advanced. by rewrite (Htask _ Ht). }
    apply (good_swap _ item); [done|done|done|].
    right; right. split; [done|]. simpl.
    eapply item_ok_advanced; [|exact Hadv]. by eapply good_head.
Qed.

Section Invariant.
Variable heuristics : Article -> option Enrichment.

(** The fulltext worker only downloads for items tagged fulltext. *)
Lemma fulltext_steps_downloading s s' item :
  s' = _fulltext_worker_get s \/ s' = _fulltext_worker_item s \/
  (exists fenv, s' = _fulltext_worker_downloaded fenv s) \/
  s' = _fulltext_worker_stored s ->
  fulltext_task s' = Downloading item ->
  fulltext_task s = Downloading item \/ stage item = "fulltext".
Proof.
  intros [->|[->|[[fenv ->]| ->]]].
  - unfold _fulltext_worker_get, queue_get.
    destruct (fulltext_task s) eqn:Ht; rewrite <- ?Ht; auto.
    destruct (processing_queue s); simpl; [|done]. rewrite Ht. done.
  - unfold _fulltext_worker_item.
    destruct (fulltext_task s) as [|it| |] eqn:Ht; rewrite <- ?Ht; auto.
    destruct (String.eqb_spec (stage it) "fulltext") as [Hst|Hst]; simpl; [|done].
    intros [= <-]. by right.
  - unfold _fulltext_worker_downloaded.
    destruct (fulltext_task s) eqn:Ht; rewrite <- ?Ht; auto.
    by destruct (_ && _).
  - unfold _fulltext_worker_stored.
    destruct (fulltext_task s) eqn:Ht; rewrite <- ?Ht; auto. done.
Qed.

Lemma step_downloading s s' :
  step heuristics s s' ->
  (forall item, fulltext_task s = Downloading item -> stage item = "fulltext") ->
  forall item, fulltext_task s' = Downloading item -> stage item = "fulltext".
Proof.
  intros Hstep Htask item.
  destruct Hstep as [category term xs s|s|s|s|s|fenv s|s|s|s].
  - rewrite enqueue_articles_spec. apply Htask.
  - assert (fulltext_task (_processing_worker_get s) = fulltext_task s) as ->;
      [|apply Htask].
    unfold _processing_worker_get, queue_get.
    destruct (processing_task s); try done. by destruct (processing_queue s).
  - assert (fulltext_task (_processing_worker_item heuristics s) = fulltext_task s)
      as ->; [|apply Htask].
    unfold _processing_worker_item.
    destruct (processing_task s); try done.
    simpl. destruct (bool_decide _); [done|].
    destruct (_ !! _); [|done]. by destruct (dict_truthy _).
  - intros H. eapply fulltext_steps_downloading in H as [H|H]; eauto.
  - intros H. eapply fulltext_steps_downloading in H as [H|H]; eauto.
  - intros H. eapply fulltext_steps_downloading in H as [H|H]; eauto 6.
  - intros H. eapply fulltext_steps_downloading in H as [H|H]; eauto 6.
  - assert (fulltext_task (_ocr_worker_get s) = fulltext_task s) as ->;
      [|apply Htask].
    unfold _ocr_worker_get, queue_get.
    destruct (ocr_task s); try done. by destruct (processing_queue s).
  - assert (fulltext_task (_ocr_worker_item s) = fulltext_task s) as ->;
      [|apply Htask].
    unfold _ocr_worker_item.
    destruct (ocr_task s); try done. by destruct (negb _).
Qed.

Lemma inv_initial loaded : inv (initial loaded).
Proof. split; [split; simpl; constructor|done]. Qed.

Lemma inv_step s s' : step heuristics s s' -> inv s -> inv s'.
Proof.
  intros Hstep Hinv. split.
  - eapply effect_good; [by eapply step_effect|done].
  - eapply step_downloading; [done|]. by destruct Hinv.
Qed.

Lemma inv_steps s s' : steps heuristics s s' -> inv s -> inv s'.
Proof. induction 1; eauto using inv_step. Qed.

Lemma inv_reachable s : reachable heuristics s -> inv s.
Proof. intros [loaded H]. eapply inv_steps; [exact H|apply inv_initial]. Qed.

(** ** A PMID whose pipeline has ended *)

Lemma parked_step p s s' :
  step heuristics s s' -> inv s -> parked p s -> parked p s'.
Proof.
  intros Hstep [Hgood Htask] [Hin Hall].
  destruct (step_effect _ _ _ Hstep)
    as [Hl Hp|news Hl Hnews Hp|item Hl Hp
       |item pa others Hl Hl' Hnew Hp Hft
       |item data others Ht Hl Hl' Hp]; split.
  - by rewrite Hp.
  - by rewrite Hl.
  - by rewrite Hp.
  - rewrite Hl. apply Forall_app. split; [done|].
    eapply Forall_impl; [exact Hnews|]. by intros it [? _] _.
  - by rewrite Hp.
  - rewrite Hl in Hall. by inversion Hall.
  - rewrite Hp. apply elem_of_union. by right.
  - rewrite Hl'. rewrite Hl in Hall. inversion Hall; subst.
    constructor; [|done]. simpl. intros Heq. by rewrite Heq in Hnew.
  - by rewrite Hp.
  - rewrite Hl'. rewrite Hl in Hall. inversion Hall as [|? ? Hitem Hothers]; subst.
    constructor; [|done]. simpl. intros Heq.
    specialize (Hitem Heq). rewrite (Htask _ Ht) in Hitem. discriminate Hitem.
Qed.

Lemma parked_steps p s s' :
  steps heuristics s s' -> inv s -> parked p s -> parked p s'.
Proof.
  induction 1 as [|s1 s2 s3 H12 IH H23]; [done|].
  intros Hinv Hp. eapply parked_step; [exact H23| |by apply IH].
  by eapply inv_steps.
Qed.
End Invariant.

(** ** Scenario: one record past the metadata stage *)

Lemma fulltext_pending_reachable : reachable high_relevance fulltext_pending.
Proof.
  exists ∅. unfold fulltext_pending, found_and_taken.
  eapply steps_next; [|apply step_processing_item].
  eapply steps_next; [|apply step_processing_get].
  eapply steps_next; [|apply step_search].
  apply steps_refl.
Qed.

Lemma fulltext_pending_queue :
  processing_queue fulltext_pending = [fulltext_item_333] /\
  processed_pmids fulltext_pending = {[ "333" ]}.
Proof. split; vm_compute; [reflexivity|set_solver]. Qed.

Lemma taken_by_processing_reachable :
  reachable high_relevance fulltext_item_taken_by_processing.
Proof.
  destruct fulltext_pending_reachable as [loaded H]. exists loaded.
  eapply steps_next; [exact H|apply step_processing_get].
Qed.

Lemma download_started_reachable : reachable high_relevance download_started.
Proof.
  destruct fulltext_pending_reachable as [loaded H]. exists loaded.
  unfold download_started.
  eapply steps_next; [|apply step_fulltext_item].
  eapply steps_next; [|apply step_fulltext_get].
  exact H.
Qed.

Lemma no_source_fails : fetch_fails no_source.
Proof. split; [done|]. unfold sources. repeat constructor. Qed.

(** C2: the processing worker has no stage check. In every reachable
    state, when it has taken an item tagged fulltext or ocr from the shared
    queue, it does not put the item back: the queue, the index and the
    calls are left as they are, and the item is no longer in the pipeline,
    held by no worker and not on the queue. *)
Theorem processing_worker_discards_other_stages :
  forall (heuristics : Article -> option Enrichment) (s : State) (item : WorkItem),
    reachable heuristics s ->
    processing_task s = Holding item ->
    stage item <> "metadata" ->
    let s' := _processing_worker_item heuristics s in
    processing_queue s' = processing_queue s /\
    processed_pmids s' = processed_pmids s /\
    calls s' = calls s /\
    processing_task s' = Waiting /\
    item ∉ live s'.
Proof.
  intros heuristics s item Hreach Ht Hst s'. subst s'.
  apply inv_reachable in Hreach as [Hgood _].
  assert (live s = item :: live (set_processing_task Waiting s)) as Hl
    by (unfold live; by rewrite Ht).
  rewrite Hl in Hgood.
  rewrite (processing_known_pmid _ _ _ Ht).
  - repeat split; try done. intros Hin.
    apply Hst. by eapply (good_head_unique _ item _ item).
  - eapply item_ok_advanced; [by eapply good_head|done].
Qed.

Lemma processing_worker_discards_other_stages_witness :
  let s' := _processing_worker_item high_relevance fulltext_item_taken_by_processing in
  processing_queue s' = processing_queue fulltext_item_taken_by_processing /\
  processed_pmids s' = processed_pmids fulltext_item_taken_by_processing /\
  calls s' = calls fulltext_item_taken_by_processing /\
  processing_task s' = Waiting /\
  fulltext_item_333 ∉ live s'.
Proof.
  apply (processing_worker_discards_other_stages high_relevance
           fulltext_item_taken_by_processing fulltext_item_333).
  - exact taken_by_processing_reachable.
  - vm_compute. reflexivity.
  - discriminate.
Defined.

(** C4: in every reachable state, when the fetch for the item held by
    the fulltext worker fails on every source adapter, no successor is put
    on the queue and nothing is stored; the PMID of the item is already in
    the dedup index, and in every later state it is still there while no
    item with this PMID is at the fulltext or ocr stage. *)
Theorem failed_fetch_ends_item_already_in_index :
  forall (heuristics : Article -> option Enrichment) (s : State) (fenv : FetchEnv)
         (item : WorkItem),
    reachable heuristics s ->
    fulltext_task s = Downloading item ->
    fetch_fails fenv ->
    let s' := _fulltext_worker_downloaded fenv s in
    processing_queue s' = processing_queue s /\
    calls s' = calls s /\
    fulltext_task s' = Waiting /\
    pmid item ∈ processed_pmids s /\
    forall s'', steps heuristics s' s'' ->
      pmid item ∈ processed_pmids s'' /\
      Forall (fun it => pmid it = pmid item -> stage it = "metadata") (live s'').
Proof.
  intros heuristics s fenv item Hreach Ht Hfail s'.
  apply inv_reachable in Hreach. pose proof Hreach as [Hgood Htask].
  assert (stage item = "fulltext") as Hst by by apply Htask.
  assert (advanced item) as Hadv by (unfold advanced; by rewrite Hst).
  assert (live s ≡ₚ item :: live (set_fulltext_task Waiting s)) as Hl
    by same_items.
  rewrite Hl in Hgood.
  assert (pmid item ∈ processed_pmids s) as Hin.
  { eapply item_ok_advanced; [by eapply good_head|done]. }
  assert (article item !! "full_text" = None) as Hnone.
  { destruct (good_head _ _ _ Hgood) as [[Hm _]|[(_&_&?)|(Ho&_)]]; [|done|];
      rewrite Hst in *; discriminate. }
  assert (s' = set_fulltext_task Waiting s) as Hs'.
  { subst s'. unfold _fulltext_worker_downloaded. rewrite Ht.
    rewrite (download_full_text_failed _ _ Hfail).
    unfold get. rewrite Hnone. simpl. by rewrite andb_false_r. }
  assert (inv s') as Hinv'.
  { eapply inv_step; [apply (step_fulltext_downloaded heuristics fenv)|done]. }
  rewrite Hs' in *. simpl. split; [done|]. split; [done|]. split; [done|].
  split; [done|].
  intros s'' Hsteps. apply (parked_steps _ (pmid item) _ _ Hsteps Hinv').
  split; [done|]. apply Forall_forall. intros it Hit Hp.
  by eapply (good_head_unique _ item _ it).
Qed.

Lemma failed_fetch_ends_item_already_in_index_witness :
  let s' := _fulltext_worker_downloaded no_source download_started in
  processing_queue s' = processing_queue download_started /\
  calls s' = calls download_started /\
  fulltext_task s' = Waiting /\
  pmid fulltext_item_333 ∈ processed_pmids download_started /\
  forall s'', steps high_relevance s' s'' ->
    pmid fulltext_item_333 ∈ processed_pmids s'' /\
    Forall (fun it => pmid it = pmid fulltext_item_333 -> stage it = "metadata")
           (live s'').
Proof.
  apply (failed_fetch_ends_item_already_in_index high_relevance download_started
           no_source fulltext_item_333).
  - exact download_started_reachable.
  - vm_compute. reflexivity.
  - exact no_source_fails.
Defined.

End PipelineSpec.

(* ===================================================================== *)
(** * Further properties of the commit/push cadence *)
(* ===================================================================== *)

Module GitManagerCadence.
Import GitManager.
Local Open Scope Z_scope.

Lemma commit_changes_spec run :
  _commit_changes run = exited_zero run || nothing_to_commit run.
Proof.
  destruct run as [rc out|]; [|done]. simpl.
  destruct (rc =? 0); simpl; [done|]. by destruct (contains _ out).
Qed.

Lemma push_changes_spec run : _push_changes run = exited_zero run.
Proof. destruct run as [rc out|]; [|done]. simpl. by destruct (rc =? 0). Qed.

(** X1: how the two attributes of the instance follow the subprocesses
    of the call. [commit_count] grows by one exactly when 'git commit' was
    run and [_commit_changes] answered True for it, that is when it exited
    0 or exited non-zero with 'nothing to commit' in its output: a call
    that finds nothing to commit is counted like a commit.
    [last_push_time] is stamped exactly when 'git push' was run and exited
    0. Otherwise each attribute keeps its value, also when the call
    returns false. *)
Theorem counters_follow_git_outcomes :
  forall (runs : GitRuns) (clock stamp : datetime) (self : t) (stage : string)
         (count : Z) (force : bool),
    let r := commit_and_push_if_needed (answers runs clock stamp) self stage count force in
    commit_count (after r) =
      commit_count self +
      (if attempted GitCommit r &&
          (exited_zero (commit_run runs) || nothing_to_commit (commit_run runs))
       then 1 else 0) /\
    last_push_time (after r) =
      (if attempted GitPush r && exited_zero (push_run runs)
       then Some stamp else last_push_time self).
Proof.
  intros runs clock stamp self stage count force r. subst r.
  rewrite <- commit_changes_spec, <- push_changes_spec.
  unfold commit_and_push_if_needed, answers. simpl.
  destruct (_should_commit stage count force); simpl; [|split; [lia|done]].
  destruct (_commit_changes (commit_run runs)); simpl; [|split; [lia|done]].
  match goal with |- context [_should_push ?a ?b ?c ?d ?e] =>
    destruct (_should_push a b c d e) end; simpl; [|split; [lia|done]].
  destruct (_push_changes (push_run runs)); simpl; split; (lia || done).
Qed.

(** X2: the call returns true exactly when 'git commit' was run and
    [_commit_changes] answered True for it (exit 0, or a non-zero exit with
    'nothing to commit' in the output) and 'git push', if it was run,
    exited 0; so true is returned also when nothing was committed because
    the working tree was clean, and false covers the calls in which
    nothing was due. *)
Theorem returned_means_nothing_due_failed :
  forall (runs : GitRuns) (clock stamp : datetime) (self : t) (stage : string)
         (count : Z) (force : bool),
    let r := commit_and_push_if_needed (answers runs clock stamp) self stage count force in
    returned r =
      attempted GitCommit r &&
      (exited_zero (commit_run runs) || nothing_to_commit (commit_run runs)) &&
      (negb (attempted GitPush r) || exited_zero (push_run runs)).
Proof.
  intros runs clock stamp self stage count force r. subst r.
  rewrite <- commit_changes_spec, <- push_changes_spec.
  unfold commit_and_push_if_needed, answers. simpl.
  destruct (_should_commit stage count force); simpl; [|done].
  destruct (_commit_changes (commit_run runs)); simpl; [|done].
  match goal with |- context [_should_push ?a ?b ?c ?d ?e] =>
    destruct (_should_push a b c d e) end; simpl; [|done].
  by destruct (_push_changes (push_run runs)).
Qed.

Lemma counters_follow_git_outcomes_witness :
  let r := commit_and_push_if_needed (answers nothing_staged 0 1)
             {| commit_count := 1; last_push_time := None |} "metadata" 10 false in
  commit_count (after r) = 1 + 1 /\ last_push_time (after r) = None.
Proof.
  apply (counters_follow_git_outcomes nothing_staged 0 1
           {| commit_count := 1; last_push_time := None |} "metadata" 10 false).
Defined.

Lemma returned_means_nothing_due_failed_witness :
  returned (commit_and_push_if_needed (answers nothing_staged 0 1)
              {| commit_count := 1; last_push_time := None |} "metadata" 10 false) = true.
Proof.
  apply (returned_means_nothing_due_failed nothing_staged 0 1
           {| commit_count := 1; last_push_time := None |} "metadata" 10 false).
Defined.

Lemma mod_30 count : (count mod 3 =? 0) && (count mod 10 =? 0) = (count mod 30 =? 0).
Proof.
  destruct (Z.eqb_spec (count mod 3) 0), (Z.eqb_spec (count mod 10) 0),
    (Z.eqb_spec (count mod 30) 0); simpl; try reflexivity; exfalso; Z.to_euclidean_division_equations; lia.
Qed.

Lemma mod_10 count : (count mod 2 =? 0) && (count mod 5 =? 0) = (count mod 10 =? 0).
Proof.
  destruct (Z.eqb_spec (count mod 2) 0), (Z.eqb_spec (count mod 5) 0),
    (Z.eqb_spec (count mod 10) 0); simpl; try reflexivity; exfalso; Z.to_euclidean_division_equations; lia.
Qed.

Lemma mod_50 count : (count mod 10 =? 0) && (count mod 50 =? 0) = (count mod 50 =? 0).
Proof.
  destruct (Z.eqb_spec (count mod 10) 0), (Z.eqb_spec (count mod 50) 0);
    simpl; try reflexivity; exfalso; Z.to_euclidean_division_equations; lia.
Qed.

Lemma mod_25 count : (count mod 5 =? 0) && (count mod 25 =? 0) = (count mod 25 =? 0).
Proof.
  destruct (Z.eqb_spec (count mod 5) 0), (Z.eqb_spec (count mod 25) 0);
    simpl; try reflexivity; exfalso; Z.to_euclidean_division_equations; lia.
Qed.

Lemma push_attempted env self stage count :
  git_commit_ok env = true ->
  attempted GitPush (commit_and_push_if_needed env self stage count false) =
  _should_commit stage count false &&
  _should_push {| commit_count := commit_count self + 1;
                  last_push_time := last_push_time self |} (now env) stage count false.
Proof.
  intros Hc. unfold commit_and_push_if_needed. rewrite Hc.
  destruct (_should_commit stage count false); cbn [negb andb]; [|reflexivity].
  match goal with |- context [_should_push ?a ?b ?c ?d ?e] =>
    destruct (_should_push a b c d e) end; [|reflexivity].
  destruct (git_push_ok env); reflexivity.
Qed.

(** X3: a push is attempted only after a commit of the same call, so
    without the force flag the push cadence of a stage is the conjunction
    of its commit and push conditions: every 50 for metadata and every 25
    for abstract as in the push table, but every 30 for fulltext and every
    10 for ocr, not every 10 and every 5. *)
Theorem push_cadence_is_joint :
  forall (env : Env) (self : t) (count : Z),
    git_commit_ok env = true ->
    let push stage :=
      attempted GitPush (commit_and_push_if_needed env self stage count false) in
    push "metadata" = (count mod 50 =? 0) /\
    push "abstract" = (count mod 25 =? 0) /\
    push "fulltext" = (count mod 30 =? 0) /\
    push "ocr" = (count mod 10 =? 0).
Proof.
  intros env self count Hc push. subst push. simpl.
  rewrite !push_attempted by done.
  repeat split.
  - apply mod_50.
  - apply mod_25.
  - apply mod_30.
  - apply mod_10.
Qed.

Lemma push_cadence_is_joint_witness :
  attempted GitPush (commit_and_push_if_needed (all_ok 0) init "fulltext" 10 false) = false /\
  attempted GitPush (commit_and_push_if_needed (all_ok 0) init "fulltext" 30 false) = true.
Proof.
  destruct (push_cadence_is_joint (all_ok 0) init 10 eq_refl) as (_ & _ & H10 & _).
  destruct (push_cadence_is_joint (all_ok 0) init 30 eq_refl) as (_ & _ & H30 & _).
  split; [exact H10|exact H30].
Defined.

(** Once a commit is due, the push decision does not depend on the
    instance or the clock. *)
Lemma should_push_after_commit self self' clock clock' stage count force :
  _should_commit stage count force = true ->
  _should_push self clock stage count force =
  _should_push self' clock' stage count force.
Proof.
  unfold _should_commit, _should_push. destruct force; [done|].
  unfold commit_conditions, push_conditions. simpl.
  rewrite !lookup_insert. repeat case_decide; subst; simpl; done.
Qed.

(** X4: no call of [commit_and_push_if_needed] depends on the clock, on
    the time of the last push or on the commit counter: two calls with the
    same stage, count and force flag and the same answers of git return the
    same value and run the same subprocesses. The clock is used only for
    the 'hourly' entry of the push table, and no call selects that entry. *)
Theorem elapsed_time_never_matters :
  forall (env env' : Env) (self self' : t) (stage : string) (count : Z) (force : bool),
    git_add_ok env = git_add_ok env' ->
    git_commit_ok env = git_commit_ok env' ->
    git_push_ok env = git_push_ok env' ->
    let r := commit_and_push_if_needed env self stage count force in
    let r' := commit_and_push_if_needed env' self' stage count force in
    returned r = returned r' /\ ops r = ops r'.
Proof.
  intros env env' self self' stage count force Ha Hc Hp r r'. subst r r'.
  unfold commit_and_push_if_needed. rewrite <- Ha, <- Hc, <- Hp.
  destruct (_should_commit stage count force) eqn:Hs; simpl; [|done].
  destruct (git_commit_ok env); simpl; [|done].
  rewrite (should_push_after_commit _
             {| commit_count := commit_count self' + 1;
                last_push_time := last_push_time self' |} _ (now env') _ _ _ Hs).
  destruct (_should_push _ _ _ _ _); [|done].
  by destruct (git_push_ok env).
Qed.

Lemma elapsed_time_never_matters_witness :
  let r := commit_and_push_if_needed (all_ok 0) init "metadata" 10 false in
  let r' := commit_and_push_if_needed (all_ok 7200000000)
              {| commit_count := 3; last_push_time := Some 0 |} "metadata" 10 false in
  returned r = returned r' /\ ops r = ops r'.
Proof.
  apply (elapsed_time_never_matters (all_ok 0) (all_ok 7200000000) init
           {| commit_count := 3; last_push_time := Some 0 |} "metadata" 10 false);
    reflexivity.
Defined.

End GitManagerCadence.

(* ===================================================================== *)
(** * Further properties of the chunker *)
(* ===================================================================== *)

Module ChunkerWindows.
Import Py Chunker ChunkerSpec.
Local Open Scope Z_scope.

(** ** Slices *)

Lemma slice_take_drop {A} (l : list A) i n :
  0 <= i <= len l -> 0 <= n ->
  slice l i (i + n) = take (Z.to_nat n) (drop (Z.to_nat i) l).
Proof.
  intros Hi Hn. unfold slice, adjust_index, len in *.
  destruct (Z.ltb_spec i 0); [lia|].
  destruct (Z.ltb_spec (i + n) 0); [lia|].
  rewrite (Z.min_l i) by lia.
  destruct (Z.le_ge_cases (i + n) (Z.of_nat (length l))).
  - rewrite Z.min_l by lia. f_equal. lia.
  - rewrite Z.min_r by lia.
    rewrite !take_ge; [done| |]; rewrite length_drop; lia.
Qed.

Lemma slice_clamped {A} (l : list A) i n :
  0 <= i <= len l -> 0 <= n ->
  slice l i (i + n) = slice l i (Z.min (i + n) (len l)).
Proof.
  intros Hi Hn.
  replace (Z.min (i + n) (len l)) with (i + Z.min n (len l - i)) by lia.
  rewrite !slice_take_drop by lia.
  destruct (Z.le_ge_cases n (len l - i)).
  - by rewrite Z.min_l by lia.
  - rewrite Z.min_r by lia.
    rewrite !take_ge; [done| |]; rewrite length_drop; unfold len in *; lia.
Qed.

(** ** Ranges *)

Lemma range_elements stop step starts i :
  0 <= stop ->
  range 0 stop step = Ok starts -> i ∈ starts ->
  0 < step /\ 0 <= i < stop /\ exists k : nat, i = Z.of_nat k * step.
Proof.
  intros Hstop Hr Hi. unfold range in Hr.
  destruct (Z.eqb_spec step 0); [done|]. inversion Hr; subst; clear Hr.
  apply list_elem_of_In, in_map_iff in Hi as (k & <- & Hk). apply in_seq in Hk.
  destruct (Z.lt_ge_cases 0 step) as [Hpos|Hneg].
  - split; [done|]. split; [|by exists k].
    split; [lia|]. apply range_index_bound; lia.
  - exfalso. unfold range_length in Hk.
    destruct (Z.ltb_spec 0 step); [lia|].
    destruct (Z.ltb_spec stop 0); [lia|]. simpl in Hk. lia.
Qed.

Lemma range_sorted stop step starts :
  0 < step -> range 0 stop step = Ok starts -> StronglySorted Z.lt starts.
Proof.
  intros Hs Hr. rewrite range_positive_step in Hr by done.
  inversion Hr; subst; clear Hr.
  generalize (Z.to_nat (range_length 0 stop step)) as m. intros m.
  generalize 0%nat as a.
  induction m as [|m IH]; intros a; simpl; constructor; [apply IH|].
  apply Forall_forall. intros i Hi.
  apply list_elem_of_In, in_map_iff in Hi as (k & <- & Hk). apply in_seq in Hk.
  nia.
Qed.

(** ** The loop, chunk by chunk *)

Section Loop.
Variables (words : list string) (pmid : string) (chunk_size : Z).

Lemma loop_length_ge starts acc :
  (length acc <= length (fold_left (loop_body words pmid chunk_size) starts acc))%nat.
Proof.
  revert acc. induction starts as [|i starts IH]; intros acc; simpl; [done|].
  etrans; [|apply IH]. unfold loop_body.
  destruct (long_enough _); [rewrite length_app; simpl; lia|done].
Qed.

Lemma loop_prefix starts acc (k : nat) :
  (k < length acc)%nat ->
  fold_left (loop_body words pmid chunk_size) starts acc !! k = acc !! k.
Proof.
  revert acc. induction starts as [|i starts IH]; intros acc Hk; simpl; [done|].
  rewrite IH.
  - unfold loop_body. destruct (long_enough _); [|done]. by rewrite lookup_app_l.
  - unfold loop_body. destruct (long_enough _); [|done].
    rewrite length_app. lia.
Qed.

(** Chunk [k] is the dict made for one kept window when [k] chunks existed. *)
Lemma loop_lookup starts acc (k : nat) c :
  fold_left (loop_body words pmid chunk_size) starts acc !! k = Some c ->
  (length acc <= k)%nat ->
  exists i, i ∈ starts /\ long_enough (chunk_text words chunk_size i) = true /\
            c = make_chunk words pmid chunk_size k i.
Proof.
  revert acc. induction starts as [|i starts IH]; intros acc Hc Hk; simpl in Hc.
  - apply lookup_lt_Some in Hc. lia.
  - unfold loop_body in Hc at 2.
    destruct (long_enough (chunk_text words chunk_size i)) eqn:Hl.
    + destruct (decide (k = length acc)) as [->|Hne].
      * rewrite loop_prefix in Hc by (rewrite length_app; simpl; lia).
        rewrite lookup_app_r, Nat.sub_diag in Hc by lia. simpl in Hc.
        inversion Hc; subst. exists i. split; [left|done].
      * destruct (IH _ Hc) as (j & Hj & Hrest).
        { rewrite length_app. simpl. lia. }
        exists j. split; [by right|done].
    + destruct (IH _ Hc Hk) as (j & Hj & Hrest).
      exists j. split; [by right|done].
Qed.

Lemma loop_starts starts acc :
  start_word <$> fold_left (loop_body words pmid chunk_size) starts acc =
  (start_word <$> acc) ++
  filter (fun i => long_enough (chunk_text words chunk_size i) = true) starts.
Proof.
  revert acc. induction starts as [|i starts IH]; intros acc; simpl.
  - by rewrite app_nil_r.
  - rewrite IH. unfold loop_body. rewrite filter_cons.
    destruct (long_enough _) eqn:Hl; simpl.
    + by rewrite fmap_app, <- app_assoc.
    + done.
Qed.
End Loop.

Lemma sorted_filter (P : Z -> Prop) `{!forall x, Decision (P x)} l :
  StronglySorted Z.lt l -> StronglySorted Z.lt (filter P l).
Proof.
  induction 1 as [|x l Hl IH Hx]; [constructor|].
  rewrite filter_cons. destruct (decide (P x)); [|done].
  constructor; [done|]. apply Forall_forall. intros y Hy.
  apply list_elem_of_filter in Hy as [_ Hy].
  rewrite Forall_forall in Hx. by apply Hx.
Qed.

Lemma sorted_lookup (l : list Z) (i j : nat) x y :
  StronglySorted Z.lt l -> (i < j)%nat ->
  l !! i = Some x -> l !! j = Some y -> x < y.
Proof.
  intros Hl. revert i j. induction Hl as [|a l Hl IH Ha]; intros i j Hij Hi Hj.
  - done.
  - destruct j as [|j]; [lia|]. destruct i as [|i]; simpl in *.
    + inversion Hi; subst. rewrite Forall_forall in Ha.
      apply Ha. by eapply list_elem_of_lookup_2.
    + eapply IH; [|done..]. lia.
Qed.

(** X7: every chunk describes the window it was cut from: it carries
    the pmid, its id is the pmid and its position in the result, its start
    is a multiple of the stride, its word range is not empty and lies
    inside the text, its word count is the length of that range, at most
    [chunk_size], and its text is the words of the range joined by single
    blanks. *)
Theorem chunk_describes_its_window :
  forall (txt pmid : string) (chunk_size overlap : Z) (chunks : list Chunk)
         (k : nat) (c : Chunk),
    0 <= chunk_size ->
    _create_rag_chunks txt pmid chunk_size overlap = Ok chunks ->
    chunks !! k = Some c ->
    Chunker.pmid c = pmid /\
    chunk_id c = (pmid ++ "_" ++ pretty k)%string /\
    (exists j : nat, start_word c = Z.of_nat j * (chunk_size - overlap)) /\
    0 <= start_word c < end_word c /\ end_word c <= len (split txt) /\
    word_count c = end_word c - start_word c /\
    word_count c <= chunk_size /\
    text c = join " " (slice (split txt) (start_word c) (end_word c)).
Proof.
  intros txt pmid chunk_size overlap chunks k c Hcs Hr Hk.
  unfold _create_rag_chunks in Hr.
  destruct (range 0 (len (split txt)) (chunk_size - overlap)) as [starts|e] eqn:Hrange;
    [|done].
  inversion Hr; subst; clear Hr.
  apply loop_lookup in Hk as (i & Hi & Hlong & ->); [|simpl; lia].
  destruct (range_elements (len (split txt)) _ _ _ ltac:(unfold len; lia) Hrange Hi)
    as (Hstep & Hbound & j & Hj).
  pose proof (len_slice (split txt) i chunk_size ltac:(lia) Hcs) as Hlen.
  assert (0 < len (chunk_words (split txt) chunk_size i)) as Hne.
  { unfold long_enough, chunk_text in Hlong. apply Z.ltb_lt in Hlong.
    destruct (chunk_words (split txt) chunk_size i); [vm_compute in Hlong; discriminate Hlong|].
    unfold len. simpl. lia. }
  unfold chunk_words in Hne. simpl.
  repeat split; try done; try lia.
  - by exists j.
  - unfold chunk_words. lia.
  - unfold chunk_words. lia.
  - unfold chunk_text, chunk_words. by rewrite slice_clamped by lia.
Qed.

Lemma chunk_describes_its_window_witness :
  Chunker.pmid chunk_of_51 = "1" /\
  chunk_id chunk_of_51 = ("1" ++ "_" ++ pretty 0%nat)%string /\
  (exists j : nat, start_word chunk_of_51 = Z.of_nat j * (1000 - 200)) /\
  0 <= start_word chunk_of_51 < end_word chunk_of_51 /\
  end_word chunk_of_51 <= len (split fifty_one_chars) /\
  word_count chunk_of_51 = end_word chunk_of_51 - start_word chunk_of_51 /\
  word_count chunk_of_51 <= 1000 /\
  text chunk_of_51 =
    join " " (slice (split fifty_one_chars) (start_word chunk_of_51) (end_word chunk_of_51)).
Proof.
  apply (chunk_describes_its_window fifty_one_chars "1" 1000 200 [chunk_of_51] 0).
  - lia.
  - vm_compute. reflexivity.
  - reflexivity.
Defined.

(** X8: the chunks are listed by strictly increasing start word, so no two
    chunks of a result start at the same word. *)
Theorem chunks_ordered_by_start_word :
  forall (txt pmid : string) (chunk_size overlap : Z) (chunks : list Chunk)
         (k k' : nat) (c c' : Chunk),
    _create_rag_chunks txt pmid chunk_size overlap = Ok chunks ->
    (k < k')%nat ->
    chunks !! k = Some c -> chunks !! k' = Some c' ->
    start_word c < start_word c'.
Proof.
  intros txt pmid chunk_size overlap chunks k k' c c' Hr Hkk Hk Hk'.
  unfold _create_rag_chunks in Hr.
  destruct (range 0 (len (split txt)) (chunk_size - overlap)) as [starts|e] eqn:Hrange;
    [|done].
  inversion Hr; subst; clear Hr.
  assert (0 < chunk_size - overlap) as Hstep.
  { apply loop_lookup in Hk as (i & Hi & _); [|simpl; lia].
    by destruct (range_elements (len (split txt)) _ _ _ ltac:(unfold len; lia) Hrange Hi). }
  eapply (sorted_lookup
            (start_word <$> fold_left (loop_body (split txt) pmid chunk_size) starts [])
            k k').
  - rewrite loop_starts. simpl. apply sorted_filter. by eapply range_sorted.
  - done.
  - by rewrite list_lookup_fmap, Hk.
  - by rewrite list_lookup_fmap, Hk'.
Qed.

Lemma chunks_ordered_by_start_word_witness :
  exists c d rest,
    _create_rag_chunks (repeat_word "ab" 60) "1" 30 10 = Ok (c :: d :: rest) /\
    start_word c < start_word d.
Proof.
  destruct (_create_rag_chunks (repeat_word "ab" 60) "1" 30 10)
    as [chunks|e] eqn:Hr; [|vm_compute in Hr; discriminate Hr].
  destruct chunks as [|c [|d rest]]; try (vm_compute in Hr; discriminate Hr).
  exists c, d, rest. split; [reflexivity|].
  apply (chunks_ordered_by_start_word (repeat_word "ab" 60) "1" 30 10
           (c :: d :: rest) 0 1 c d Hr); [lia|reflexivity|reflexivity].
Defined.

(** ** Lengths of trimmed and joined texts *)

Lemma length_lstrip s : (String.length (lstrip s) <= String.length s)%nat.
Proof.
  induction s as [|c s IH]; simpl; [done|]. destruct (isspace c); simpl; lia.
Qed.

Lemma length_rstrip s : (String.length (rstrip s) <= String.length s)%nat.
Proof.
  induction s as [|c s IH]; simpl; [done|].
  destruct (rstrip s); [destruct (isspace c)|]; simpl in *; lia.
Qed.

Lemma length_strip s : (String.length (strip s) <= String.length s)%nat.
Proof. unfold strip. etrans; [apply length_rstrip|apply length_lstrip]. Qed.

Lemma length_join_cons sep w ws :
  (String.length (join sep ws) <= String.length (join sep (w :: ws)))%nat.
Proof. destruct ws; simpl; [lia|]. rewrite !length_append. lia. Qed.

Lemma length_join_head sep w ws :
  (String.length w <= String.length (join sep (w :: ws)))%nat.
Proof. destruct ws; simpl; [lia|]. rewrite !length_append. lia. Qed.

Lemma length_join_take sep (ws : list string) n :
  (String.length (join sep (take n ws)) <= String.length (join sep ws))%nat.
Proof.
  revert n. induction ws as [|w ws IH]; intros [|n]; simpl take; try (simpl; lia).
  specialize (IH n). destruct (take n ws) as [|w' ws'] eqn:Ht.
  - apply length_join_head.
  - destruct ws as [|w2 ws2]; [by destruct n|].
    change (join sep (w :: w' :: ws')) with (w ++ sep ++ join sep (w' :: ws'))%string.
    change (join sep (w :: w2 :: ws2)) with (w ++ sep ++ join sep (w2 :: ws2))%string.
    rewrite !length_append. lia.
Qed.

Lemma length_join_drop sep (ws : list string) n :
  (String.length (join sep (drop n ws)) <= String.length (join sep ws))%nat.
Proof.
  revert n. induction ws as [|w ws IH]; intros [|n]; simpl drop; try (simpl; lia).
  etrans; [apply IH|apply length_join_cons].
Qed.

Lemma length_join_slice sep (ws : list string) i j :
  (String.length (join sep (slice ws i j)) <= String.length (join sep ws))%nat.
Proof.
  unfold slice. etrans; [apply length_join_take|apply length_join_drop].
Qed.

Lemma split_starts_word s : starts_word s = true -> split s <> [].
Proof.
  destruct s as [|c s]; simpl; [done|]. intros Hc.
  destruct (isspace c); [done|].
  destruct (starts_word s); [by destruct (split s)|done].
Qed.

Lemma length_join_split s :
  (String.length (join " " (split s)) <= String.length s)%nat /\
  (starts_word s = false -> s <> EmptyString ->
   String.length (join " " (split s)) + 1 <= String.length s)%nat.
Proof.
  induction s as [|c s [IH1 IH2]]; [by split|].
  simpl split. simpl starts_word. destruct (isspace c) eqn:Hc; simpl negb.
  - split; [simpl; lia|]. intros _ _. simpl. lia.
  - split; [|done].
    destruct (starts_word s) eqn:Hs.
    + destruct (split s) as [|w ws] eqn:Hsplit; [simpl; lia|].
      destruct ws as [|w' ws]; [simpl in *; lia|].
      change (join " " (String c w :: w' :: ws))
        with (String c (join " " (w :: w' :: ws))).
      cbn [String.length]. lia.
    + destruct (split s) as [|w ws] eqn:Hsplit; [simpl; lia|].
      change (join " " (String c EmptyString :: w :: ws))
        with (String c (String " " (join " " (w :: ws)))).
      cbn [String.length].
      assert (s <> EmptyString) as Hne by (intros ->; done).
      specialize (IH2 eq_refl Hne). lia.
Qed.

(** X9: a text of at most 50 characters gives no chunk, whatever the
    window and the overlap: no window of it can be longer than the text. *)
Theorem short_text_has_no_chunks :
  forall (txt pmid : string) (chunk_size overlap : Z) (chunks : list Chunk),
    strlen txt <= 50 ->
    _create_rag_chunks txt pmid chunk_size overlap = Ok chunks ->
    chunks = [].
Proof.
  intros txt pmid chunk_size overlap chunks Hlen Hr.
  unfold _create_rag_chunks in Hr.
  destruct (range 0 (len (split txt)) (chunk_size - overlap)) as [starts|e]; [|done].
  inversion Hr; subst; clear Hr.
  apply (fmap_nil_inv text). rewrite loop_texts. simpl.
  induction starts as [|i starts IH]; [done|].
  rewrite fmap_cons, filter_cons_False; [done|].
  unfold chunk_text, chunk_words.
  pose proof (length_strip (join " " (slice (split txt) i (i + chunk_size)))).
  pose proof (length_join_slice " " (split txt) i (i + chunk_size)).
  pose proof (proj1 (length_join_split txt)).
  unfold strlen in *. lia.
Qed.

Lemma short_text_has_no_chunks_witness :
  exists chunks,
    _create_rag_chunks "a short abstract" "1" 1000 200 = Ok chunks /\ chunks = [].
Proof.
  destruct (_create_rag_chunks "a short abstract" "1" 1000 200)
    as [chunks|e] eqn:Hr; [|vm_compute in Hr; discriminate Hr].
  exists chunks. split; [reflexivity|].
  apply (short_text_has_no_chunks "a short abstract" "1" 1000 200 chunks);
    [vm_compute; discriminate|exact Hr].
Defined.

(** ** Splitting a joined text *)

Lemma nospace_word c w :
  is_word (String c w) -> w <> EmptyString -> is_word w.
Proof.
  intros [_ Hn] Hne. simpl in Hn. apply andb_prop in Hn as [_ Hn].
  split; [|done]. destruct w as [|c' w]; [done|].
  simpl in *. by apply andb_prop in Hn as [-> _].
Qed.

Lemma split_cons c s :
  split (String c s) =
  if isspace c then split s
  else if starts_word s then
    match split s with
    | w :: ws => String c w :: ws
    | [] => [String c EmptyString]
    end
  else String c EmptyString :: split s.
Proof. reflexivity. Qed.

Lemma split_word_app w s :
  is_word w -> starts_word s = false -> split (w ++ s) = w :: split s.
Proof.
  induction w as [|c w IH]; intros Hw Hs; [by destruct Hw|].
  pose proof Hw as [Hc _]. simpl in Hc. apply negb_true_iff in Hc.
  change (String c w ++ s)%string with (String c (w ++ s)).
  rewrite split_cons, Hc.
  destruct w as [|c' w].
  - change (EmptyString ++ s)%string with s. by rewrite Hs.
  - assert (is_word (String c' w)) as Hw' by by eapply nospace_word.
    rewrite (IH Hw' Hs).
    destruct Hw' as [Hc' _].
    change (starts_word (String c' w ++ s)) with (starts_word (String c' w)).
    by rewrite Hc'.
Qed.

Lemma append_empty_r (w : string) : (w ++ EmptyString)%string = w.
Proof.
  induction w as [|c w IH]; [done|].
  change (String c (w ++ EmptyString) = String c w). by rewrite IH.
Qed.

Lemma split_join ws : Forall is_word ws -> split (join " " ws) = ws.
Proof.
  induction 1 as [|w ws Hw Hws IH]; [done|].
  destruct ws as [|w' ws].
  - simpl. replace (split w) with (split (w ++ EmptyString))
      by (by rewrite append_empty_r).
    by rewrite split_word_app.
  - change (join " " (w :: w' :: ws)) with (w ++ String " " (join " " (w' :: ws)))%string.
    rewrite split_word_app by done. rewrite split_cons.
    change (isspace " ") with true. cbv iota. by rewrite IH.
Qed.

(** X10: the text of a chunk is normalised: trimming leaves it unchanged,
    and splitting it again gives back exactly the words of its window,
    [word_count] of them, whatever white space separated them in the
    source text. *)
Theorem chunk_text_is_normalised :
  forall (txt pmid : string) (chunk_size overlap : Z) (chunks : list Chunk)
         (k : nat) (c : Chunk),
    _create_rag_chunks txt pmid chunk_size overlap = Ok chunks ->
    chunks !! k = Some c ->
    strip (text c) = text c /\
    split (text c) = slice (split txt) (start_word c) (start_word c + chunk_size) /\
    word_count c = len (split (text c)).
Proof.
  intros txt pmid chunk_size overlap chunks k c Hr Hk.
  unfold _create_rag_chunks in Hr.
  destruct (range 0 (len (split txt)) (chunk_size - overlap)) as [starts|e]; [|done].
  inversion Hr; subst; clear Hr.
  apply loop_lookup in Hk as (i & Hi & Hlong & ->); [|simpl; lia].
  simpl. unfold chunk_text, chunk_words.
  assert (Forall is_word (slice (split txt) i (i + chunk_size))) as Hw
    by apply slice_sublist, split_words.
  by rewrite strip_join, split_join.
Qed.

Lemma chunk_text_is_normalised_witness :
  strip (text chunk_of_51) = text chunk_of_51 /\
  split (text chunk_of_51) =
    slice (split fifty_one_chars) (start_word chunk_of_51) (start_word chunk_of_51 + 1000) /\
  word_count chunk_of_51 = len (split (text chunk_of_51)).
Proof.
  apply (chunk_text_is_normalised fifty_one_chars "1" 1000 200 [chunk_of_51] 0).
  - vm_compute. reflexivity.
  - reflexivity.
Defined.

End ChunkerWindows.

Module ChunkerCoverage.
Import Py Chunker ChunkerSpec ChunkerWindows.
Local Open Scope Z_scope.

Lemma range_contains stop step m :
  0 < step -> 0 <= m -> m * step < stop ->
  exists starts, range 0 stop step = Ok starts /\ m * step ∈ starts.
Proof.
  intros Hs Hm Hlt. rewrite range_positive_step by done. eexists. split; [done|].
  apply list_elem_of_In, in_map_iff. exists (Z.to_nat m). split; [lia|].
  apply in_seq. split; [lia|]. simpl.
  assert (m < range_length 0 stop step); [|lia].
  unfold range_length.
  destruct (Z.ltb_spec 0 step); [|lia].
  destruct (Z.ltb_spec 0 stop); [|nia].
  assert (m <= (stop - 0 - 1) / step); [|lia].
  apply Z.div_le_lower_bound; lia.
Qed.

Lemma kept_window_chunk words pmid chunk_size starts i :
  i ∈ starts ->
  long_enough (chunk_text words chunk_size i) = true ->
  exists c,
    c ∈ fold_left (loop_body words pmid chunk_size) starts [] /\
    start_word c = i /\ end_word c = Z.min (i + chunk_size) (len words).
Proof.
  intros Hi Hl.
  assert (i ∈ start_word <$> fold_left (loop_body words pmid chunk_size) starts [])
    as Hin.
  { rewrite loop_starts. simpl. by apply list_elem_of_filter. }
  apply list_elem_of_fmap in Hin as (c & -> & Hc).
  exists c. split; [done|]. split; [done|].
  apply list_elem_of_lookup in Hc as [k Hk].
  apply loop_lookup in Hk as (i' & _ & _ & ->); [|simpl; lia]. done.
Qed.

(** X22: with a positive stride and an overlap of at least 50 words, a
    text of more than 50 words is covered by its chunks: every word of the
    text lies in the word range of some chunk, so the length test drops no
    part of such a text. *)
Theorem long_text_is_covered :
  forall (txt pmid : string) (chunk_size overlap : Z) (chunks : list Chunk) (j : Z),
    0 < chunk_size - overlap ->
    50 <= overlap ->
    50 < len (split txt) ->
    _create_rag_chunks txt pmid chunk_size overlap = Ok chunks ->
    0 <= j < len (split txt) ->
    exists c, c ∈ chunks /\ start_word c <= j < end_word c.
Proof.
  intros txt pmid chunk_size overlap chunks j Hs Hov Hn Hr Hj.
  set (s := chunk_size - overlap) in *. set (n := len (split txt)) in *.
  set (m := Z.min (j / s) ((n - 51) / s)).
  assert (0 <= j / s) by (apply Z.div_pos; lia).
  assert (0 <= (n - 51) / s) by (apply Z.div_pos; lia).
  pose proof (Z.mul_div_le j s Hs). pose proof (Z.mul_div_le (n - 51) s Hs).
  pose proof (Z.mul_succ_div_gt j s Hs).
  pose proof (Z.mul_succ_div_gt (n - 51) s Hs).
  assert (0 <= m /\ m * s <= j /\ m * s <= n - 51 /\ j < m * s + chunk_size)
    as (Hm0 & Hmj & Hmn & Hjm).
  { subst m. destruct (Z.min_spec (j / s) ((n - 51) / s)) as [[? ->]|[? ->]];
      subst s; nia. }
  destruct (range_contains n s m Hs Hm0 ltac:(lia)) as (starts & Hrange & Hin).
  unfold _create_rag_chunks in Hr. fold n s in Hr. rewrite Hrange in Hr.
  inversion Hr; subst chunks; clear Hr.
  destruct (kept_window_chunk (split txt) pmid chunk_size starts (m * s) Hin)
    as (c & Hc & Hstart & Hend).
  { apply many_words_long_enough; fold n; lia. }
  exists c. split; [done|]. rewrite Hstart, Hend. fold n. lia.
Qed.

Lemma long_text_is_covered_witness :
  exists chunks c,
    _create_rag_chunks (repeat_word "ab" 60) "1" 60 50 = Ok chunks /\
    c ∈ chunks /\ start_word c <= 59 < end_word c.
Proof.
  destruct (_create_rag_chunks (repeat_word "ab" 60) "1" 60 50)
    as [chunks|e] eqn:Hr; [|vm_compute in Hr; discriminate Hr].
  destruct (long_text_is_covered (repeat_word "ab" 60) "1" 60 50 chunks 59)
    as (c & Hc & Hj); [lia|lia|vm_compute; reflexivity|exact Hr|vm_compute; split; [discriminate|reflexivity]|].
  exists chunks, c. split; [reflexivity|]. split; [exact Hc|exact Hj].
Defined.

End ChunkerCoverage.

(* ===================================================================== *)
(** * Runs of the worker loops *)
(* ===================================================================== *)

Module PipelineRuns.
Import Py Pipeline PipelineSpec.

Lemma traced_refl s : traced s s.
Proof. by apply traced_moved. Qed.

Lemma fresh_id_labelled index category term a :
  fresh_id index a = true ->
  pmid (metadata_item category term a) <> EmptyString /\
  get (article (metadata_item category term a)) "pmid" =
    PStr (pmid (metadata_item category term a)).
Proof.
  unfold fresh_id, metadata_item, pmid_string. simpl.
  destruct (get a "pmid") as [|p| | |]; try done.
  intros H. apply andb_true_iff in H as [H _]. split; [|done].
  intros ->. done.
Qed.

Lemma enriched_relevant heuristics article processed :
  _process_single_article heuristics article = Some processed ->
  processed !! "pmid" = article !! "pmid" /\ relevant processed.
Proof.
  unfold _process_single_article. destruct (heuristics article) as [e|]; [|done].
  destruct (Qle_bool _ _) eqn:Hq; [|done]. intros [= <-]. split.
  - by rewrite !lookup_insert_ne by done.
  - exists (relevance_score e). split; [|by apply Qle_bool_iff].
    by rewrite !lookup_insert_ne, lookup_insert by done.
Qed.

Section Traces.
Variable heuristics : Article -> option Enrichment.

Lemma processing_get_traced s : traced s (_processing_worker_get s).
Proof.
  unfold _processing_worker_get, queue_get.
  destruct (processing_task s) eqn:Ht; try apply traced_refl.
  destruct (processing_queue s) as [|item rest] eqn:Hq; [apply traced_refl|].
  apply traced_moved; [same_items|done|done].
Qed.

Lemma fulltext_get_traced s : traced s (_fulltext_worker_get s).
Proof.
  unfold _fulltext_worker_get, queue_get.
  destruct (fulltext_task s) eqn:Ht; try apply traced_refl.
  destruct (processing_queue s) as [|item rest] eqn:Hq; [apply traced_refl|].
  apply traced_moved; [same_items|done|done].
Qed.

Lemma ocr_get_traced s : traced s (_ocr_worker_get s).
Proof.
  unfold _ocr_worker_get, queue_get.
  destruct (ocr_task s) eqn:Ht; try apply traced_refl.
  destruct (processing_queue s) as [|item rest] eqn:Hq; [apply traced_refl|].
  apply traced_moved; [same_items|done|done].
Qed.

Lemma processing_item_traced s : traced s (_processing_worker_item heuristics s).
Proof.
  destruct (processing_task s) as [|item| |] eqn:Ht;
    try (rewrite processing_not_holding; [apply traced_refl|by rewrite Ht]).
  destruct (decide (pmid item ∈ processed_pmids s)) as [Hin|Hin].
  { rewrite (processing_known_pmid _ _ _ Ht Hin).
    apply (traced_skipped _ _ item); [same_items|done|by left]. }
  destruct (_process_single_article heuristics (article item)) as [pa|] eqn:Hp.
  - rewrite (processing_enriched _ _ _ _ Ht Hin Hp).
    apply enriched_relevant in Hp as [Hpmid Hrel].
    apply (traced_enriched _ _ item pa
             (held (fulltext_task s) ++ held (ocr_task s) ++ processing_queue s));
      try done; clear Hpmid; same_items.
  - rewrite (processing_filtered _ _ _ Ht Hin Hp).
    apply (traced_skipped _ _ item); [clear Hp; same_items|done|by right].
Qed.

Lemma fulltext_item_traced s : traced s (_fulltext_worker_item s).
Proof.
  unfold _fulltext_worker_item.
  destruct (fulltext_task s) as [|item| |] eqn:Ht; try apply traced_refl.
  destruct (negb _); (apply traced_moved; [same_items|done|done]).
Qed.

Lemma fulltext_downloaded_traced fenv s :
  traced s (_fulltext_worker_downloaded fenv s).
Proof.
  unfold _fulltext_worker_downloaded.
  destruct (fulltext_task s) as [|item|item|] eqn:Ht; try apply traced_refl.
  destruct (_ && _) eqn:Hc.
  - apply andb_true_iff in Hc as [_ Hc].
    apply (traced_stored _ _ item (download_full_text fenv (article item))
             (held (processing_task s) ++ held (ocr_task s) ++ processing_queue s));
      try done; clear Hc; same_items.
  - clear Hc. apply (traced_skipped _ _ item); [same_items|done|by left].
Qed.

Lemma fulltext_stored_traced s : traced s (_fulltext_worker_stored s).
Proof.
  unfold _fulltext_worker_stored.
  destruct (fulltext_task s) as [|item|item|item data] eqn:Ht; try apply traced_refl.
  apply traced_moved; [same_items|done|done].
Qed.

Lemma ocr_item_traced s : traced s (_ocr_worker_item s).
Proof.
  unfold _ocr_worker_item.
  destruct (ocr_task s) as [|item| |] eqn:Ht; try apply traced_refl.
  destruct (String.eqb_spec (stage item) "ocr") as [Hst|Hst]; simpl.
  - apply (traced_chunked _ _ item); [done|same_items|done|done].
  - apply traced_moved; [same_items|done|done].
Qed.

Lemma search_traced category term xs s :
  traced s (enqueue_articles category term (_extract_article_data <$> xs) s).
Proof.
  rewrite enqueue_articles_spec.
  apply (traced_found _ _
           (metadata_item category term <$>
              filter (fun a => fresh_id (processed_pmids s) a = true)
                     (_extract_article_data <$> xs))); try done.
  - unfold live. simpl. by rewrite !app_assoc.
  - apply Forall_forall. intros it Hit.
    apply list_elem_of_fmap in Hit as (a & -> & Ha).
    apply list_elem_of_filter in Ha as [Ha _]. split; [done|].
    by eapply fresh_id_labelled.
Qed.

Lemma step_traced s s' : step heuristics s s' -> traced s s'.
Proof.
  destruct 1; auto using search_traced, processing_get_traced,
    processing_item_traced, fulltext_get_traced, fulltext_item_traced,
    fulltext_downloaded_traced, fulltext_stored_traced, ocr_get_traced,
    ocr_item_traced.
Qed.
End Traces.


(** ** The calls of a run *)

Lemma metadata_calls_snoc cs c :
  metadata_calls (cs ++ [c]) =
  metadata_calls cs ++
    match c with StoreMetadataAndAbstract p _ => [p] | _ => [] end.
Proof. unfold metadata_calls. rewrite omap_app. by destruct c. Qed.

Lemma fulltext_calls_snoc cs c :
  fulltext_calls (cs ++ [c]) =
  fulltext_calls cs ++
    match c with StoreArticleFulltext p _ => [p] | _ => [] end.
Proof. unfold fulltext_calls. rewrite omap_app. by destruct c. Qed.

Lemma ocr_calls_snoc cs c :
  ocr_calls (cs ++ [c]) =
  ocr_calls cs ++ match c with ProcessOcrForRag p _ => [p] | _ => [] end.
Proof. unfold ocr_calls. rewrite omap_app. by destruct c. Qed.

Lemma in_stage_order_snoc cs c :
  in_stage_order cs -> call_in_order cs c -> in_stage_order (cs ++ [c]).
Proof.
  intros H Hc i c' Hi.
  destruct (decide (i < length cs)%nat) as [Hlt|Hge].
  - rewrite lookup_app_l in Hi by done.
    rewrite take_app_le by lia. by apply H.
  - rewrite lookup_app_r in Hi by lia.
    destruct (i - length cs)%nat as [|n] eqn:Hn; simpl in Hi; [|done].
    injection Hi as <-.
    assert (i = length cs) as -> by lia. by rewrite take_app_length.
Qed.

Lemma metadata_calls_take i cs p :
  p ∈ metadata_calls (take i cs) -> p ∈ metadata_calls cs.
Proof.
  intros H. rewrite <- (take_drop i cs) at 1. unfold metadata_calls in *.
  rewrite omap_app. apply elem_of_app. by left.
Qed.

Lemma fulltext_calls_take i cs p :
  p ∈ fulltext_calls (take i cs) -> p ∈ fulltext_calls cs.
Proof.
  intros H. rewrite <- (take_drop i cs) at 1. unfold fulltext_calls in *.
  rewrite omap_app. apply elem_of_app. by left.
Qed.

Lemma fulltext_after_metadata cs p :
  in_stage_order cs -> p ∈ fulltext_calls cs -> p ∈ metadata_calls cs.
Proof.
  intros H Hp. apply list_elem_of_omap in Hp as (c & Hc & Heq).
  destruct c; try done. injection Heq as ->.
  apply list_elem_of_lookup in Hc as [i Hi].
  apply (metadata_calls_take i). exact (H i _ Hi).
Qed.

Lemma ocr_after_fulltext cs p :
  in_stage_order cs -> p ∈ ocr_calls cs -> p ∈ fulltext_calls cs.
Proof.
  intros H Hp. apply list_elem_of_omap in Hp as (c & Hc & Heq).
  destruct c; try done. injection Heq as ->.
  apply list_elem_of_lookup in Hc as [i Hi].
  apply (fulltext_calls_take i). exact (H i _ Hi).
Qed.

Lemma NoDup_snoc (l : list string) p : NoDup l -> p ∉ l -> NoDup (l ++ [p]).
Proof.
  intros Hl Hp. apply NoDup_app. split; [done|]. split; [|apply NoDup_singleton].
  intros x Hx Hx'. apply list_elem_of_singleton in Hx' as ->. by apply Hp.
Qed.

Lemma accounted_initial loaded : accounted loaded (initial loaded).
Proof.
  split; simpl; try done; try apply NoDup_nil_2;
    try (intros ? H; by apply elem_of_nil in H).
  by rewrite union_empty_r_L.
Qed.

Lemma accounted_traced loaded s s' :
  inv s -> traced s s' -> accounted loaded s -> accounted loaded s'.
Proof.
  intros [Hgood Hdl] Htr Hacc.
  assert (forall p, p ∈ fulltext_calls (calls s) -> p ∈ metadata_calls (calls s))
    as Hfm by (intros p; apply fulltext_after_metadata, Hacc).
  assert (forall p, p ∈ ocr_calls (calls s) -> p ∈ fulltext_calls (calls s))
    as Hof by (intros p; apply ocr_after_fulltext, Hacc).
  destruct Hacc as [Hex Hnew Hm1 Hf1 Ho1 Hord Hadv Hocr Hfl Hcl].
  assert (loaded ⊆ processed_pmids s) as Hl.
  { intros x Hx. rewrite Hex. apply elem_of_union. by left. }
  assert (forall p, p ∈ metadata_calls (calls s) -> p ∈ processed_pmids s) as Hidx.
  { intros x Hx. rewrite Hex. apply elem_of_union. right.
    by apply elem_of_list_to_set. }
  destruct Htr as
    [Hlive Hp Hc | news Hlive Hnews Hp Hc | item Hlive Hp Hc
    | item pa others Hlive Hlive' Hfresh Hp Hc _ _
    | item data others Htask Hlive Hlive' Hp Hc _
    | item Hst Hlive Hp Hc].
  - (* moved *)
    split; rewrite ?Hc, ?Hp; try done; intros it Hit; rewrite Hlive in Hit; eauto.
  - (* found *)
    assert (forall it, it ∈ live s' -> it ∈ live s \/ stage it = "metadata") as Hin.
    { intros it Hit. rewrite Hlive in Hit. apply elem_of_app in Hit as [|Hit]; [by left|].
      right. eapply Forall_forall in Hnews; [|done]. apply Hnews. }
    split; rewrite ?Hc, ?Hp; try done; intros it Hit; apply Hin in Hit as [Hit|Hit];
      eauto; rewrite ?Hit; try done.
  - (* skipped *)
    assert (forall it, it ∈ live s' -> it ∈ live s) as Hin.
    { intros it Hit. rewrite Hlive. by apply elem_of_cons; right. }
    assert (metadata_calls (calls s') = metadata_calls (calls s)) as Em.
    { destruct Hc as [->| ->]; [done|]. rewrite metadata_calls_snoc. apply app_nil_r. }
    assert (fulltext_calls (calls s') = fulltext_calls (calls s)) as Ef.
    { destruct Hc as [->| ->]; [done|]. rewrite fulltext_calls_snoc. apply app_nil_r. }
    assert (ocr_calls (calls s') = ocr_calls (calls s)) as Eo.
    { destruct Hc as [->| ->]; [done|]. rewrite ocr_calls_snoc. apply app_nil_r. }
    split; rewrite ?Em, ?Ef, ?Eo, ?Hp; try done; eauto.
    destruct Hc as [->| ->]; [done|]. by apply in_stage_order_snoc.
  - (* enriched *)
    assert (forall it, it ∈ live s' ->
              it = fulltext_successor item pa \/ it ∈ live s) as Hin.
    { intros it Hit. rewrite Hlive' in Hit. apply elem_of_cons in Hit as [|Hit]; [by left|].
      right. rewrite Hlive. by apply elem_of_cons; right. }
    assert (pmid item ∉ metadata_calls (calls s)) as Hnm by (intros H; by apply Hfresh, Hidx).
    split; rewrite ?Hc, ?Hp, ?metadata_calls_snoc, ?fulltext_calls_snoc,
      ?ocr_calls_snoc, ?app_nil_r; try done.
    + rewrite Hex, list_to_set_snoc_L.
      rewrite (union_comm_L {[pmid item]}), <- union_assoc_L. done.
    + intros p Hpin. apply elem_of_app in Hpin as [Hpin|Hpin]; [by apply Hnew|].
      apply list_elem_of_singleton in Hpin as ->. intros Hld. by apply Hfresh, Hl.
    + by apply NoDup_snoc.
    + by apply in_stage_order_snoc.
    + intros it Hit Hs. apply elem_of_app. apply Hin in Hit as [->|Hit].
      * right. by apply list_elem_of_singleton.
      * left. by apply Hadv.
    + intros it Hit Hs. apply Hin in Hit as [->|Hit]; [done|]. by apply Hocr.
    + intros it Hit Hpin. apply Hin in Hit as [->|Hit]; [|by apply Hfl].
      simpl in Hpin. exfalso. by apply Hnm, Hfm.
    + intros it Hit Hpin. apply Hin in Hit as [->|Hit]; [|by apply Hcl].
      simpl in Hpin. exfalso. by apply Hnm, Hfm, Hof.
  - (* stored *)
    assert (item ∈ live s) as Hitem by (rewrite Hlive; apply elem_of_cons; by left).
    assert (stage item = "fulltext") as Hsi by by apply Hdl.
    assert (advanced item) as Hai by (unfold advanced; by rewrite Hsi).
    apply (good_perm _ _ _ Hlive) in Hgood.
    assert (forall it, it ∈ live s' ->
              it = ocr_successor item data \/
              (it ∈ live s /\ (pmid it = pmid item -> stage it = "metadata"))) as Hin.
    { intros it Hit. rewrite Hlive' in Hit. apply elem_of_cons in Hit as [|Hit]; [by left|].
      right. split; [rewrite Hlive; by apply elem_of_cons; right|].
      by eapply good_head_unique. }
    split; rewrite ?Hc, ?Hp, ?metadata_calls_snoc, ?fulltext_calls_snoc,
      ?ocr_calls_snoc, ?app_nil_r; try done.
    + apply NoDup_snoc; [done|]. intros H. by apply (Hfl item).
    + apply in_stage_order_snoc; [done|]. simpl. apply Hadv; [done|by rewrite Hsi].
    + intros it Hit Hs. apply Hin in Hit as [->|[Hit _]]; [|by apply Hadv].
      simpl. apply Hadv; [done|by rewrite Hsi].
    + intros it Hit Hs. apply elem_of_app. apply Hin in Hit as [->|[Hit _]].
      * right. by apply list_elem_of_singleton.
      * left. by apply Hocr.
    + intros it Hit Hpin. apply Hin in Hit as [->|[Hit Hu]]; [done|].
      apply elem_of_app in Hpin as [Hpin|Hpin]; [by apply Hfl|].
      apply list_elem_of_singleton in Hpin. by rewrite Hu.
    + intros it Hit Hpin. apply Hin in Hit as [->|[Hit _]]; [|by apply Hcl].
      simpl in Hpin. apply Hcl in Hpin; [|done]. by rewrite Hsi in Hpin.
  - (* chunked *)
    assert (item ∈ live s) as Hitem by (rewrite Hlive; apply elem_of_cons; by left).
    assert (advanced item) as Hai by (unfold advanced; by rewrite Hst).
    apply (good_perm _ _ _ Hlive) in Hgood.
    assert (forall it, it ∈ live s' ->
              it ∈ live s /\ (pmid it = pmid item -> stage it = "metadata")) as Hin.
    { intros it Hit. split; [rewrite Hlive; by apply elem_of_cons; right|].
      by eapply good_head_unique. }
    split; rewrite ?Hc, ?Hp, ?metadata_calls_snoc, ?fulltext_calls_snoc,
      ?ocr_calls_snoc, ?app_nil_r; try done.
    + apply NoDup_snoc; [done|]. intros H. apply Hcl in H; [|done]. by rewrite Hst in H.
    + apply in_stage_order_snoc; [done|]. simpl. by apply Hocr.
    + intros it Hit Hs. apply Hin in Hit as [Hit _]. by apply Hadv.
    + intros it Hit Hs. apply Hin in Hit as [Hit _]. by apply Hocr.
    + intros it Hit Hpin. apply Hin in Hit as [Hit _]. by apply Hfl.
    + intros it Hit Hpin. apply Hin in Hit as [Hit Hu].
      apply elem_of_app in Hpin as [Hpin|Hpin]; [by apply Hcl|].
      apply list_elem_of_singleton in Hpin. by apply Hu.
Qed.

Lemma sound_initial loaded : sound (initial loaded).
Proof.
  split; simpl; try (intros ? H; by apply elem_of_nil in H);
    intros ? ? H; by apply elem_of_nil in H.
Qed.

Lemma call_snoc (c c' : Call) cs : c ∈ cs ++ [c'] -> c ∈ cs \/ c = c'.
Proof.
  intros H. apply elem_of_app in H as [H|H]; [by left|right].
  by apply list_elem_of_singleton in H.
Qed.

Lemma call_kept (c c' : Call) cs : c ∈ cs -> c ∈ cs ++ [c'].
Proof. intros H. apply elem_of_app. by left. Qed.

Lemma call_last (c : Call) cs : c ∈ cs ++ [c].
Proof. apply elem_of_app. right. by apply list_elem_of_singleton. Qed.

Lemma sound_traced s s' : inv s -> traced s s' -> sound s -> sound s'.
Proof.
  intros [Hgood Hdl] Htr [Hn Hlb Hms Hfs Hos Hoc].
  destruct Htr as
    [Hlive Hp Hc | news Hlive Hnews Hp Hc | item Hlive Hp Hc
    | item pa others Hlive Hlive' Hfresh Hp Hc Hpmid Hrel
    | item data others Htask Hlive Hlive' Hp Hc Hfull
    | item Hst Hlive Hp Hc].
  - (* moved *)
    split; rewrite ?Hc; try done; intros it Hit; rewrite Hlive in Hit; eauto.
  - (* found *)
    assert (forall it, it ∈ live s' ->
              it ∈ live s \/
              (stage it = "metadata" /\ pmid it <> EmptyString /\
               get (article it) "pmid" = PStr (pmid it))) as Hin.
    { intros it Hit. rewrite Hlive in Hit. apply elem_of_app in Hit as [|Hit]; [by left|].
      right. by eapply Forall_forall in Hnews. }
    split; rewrite ?Hc; try done; intros it Hit; apply Hin in Hit as [Hit|(Hs & Hne & Hl)];
      eauto; rewrite ?Hs; done.
  - (* skipped *)
    assert (forall it, it ∈ live s' -> it ∈ live s) as Hin.
    { intros it Hit. rewrite Hlive. by apply elem_of_cons; right. }
    assert (forall c, c ∈ calls s -> c ∈ calls s') as Hkeep.
    { intros c Hin'. destruct Hc as [->| ->]; [done|by apply call_kept]. }
    assert (forall c, c ∈ calls s' ->
              c ∈ calls s \/ c = LoggerError "processing" IndexError) as Hold.
    { intros c Hin'. destruct Hc as [Hc|Hc]; rewrite Hc in Hin'; [by left|].
      by apply call_snoc. }
    split.
    + intros it Hit. by apply Hn, Hin.
    + intros it Hit Hs. apply Hlb; [by apply Hin|done].
    + intros p a H. apply Hold in H as [H|H]; [exact (Hms _ _ H)|done].
    + intros p d H. apply Hold in H as [H|H]; [exact (Hfs _ _ H)|done].
    + intros it Hit Hs. apply Hkeep, Hos; [by apply Hin|done].
    + intros p a H. apply Hold in H as [H|H]; [by apply Hkeep, Hoc|done].
  - (* enriched *)
    assert (item ∈ live s) as Hitem by (rewrite Hlive; apply elem_of_cons; by left).
    assert (stage item = "metadata") as Hsi.
    { apply (good_perm _ _ _ Hlive) in Hgood. apply good_head in Hgood.
      destruct Hgood as [[? _]|[(_ & Hin & _)|[_ Hin]]]; done. }
    assert (get pa "pmid" = PStr (pmid item)) as Hlab.
    { unfold get. rewrite Hpmid. apply Hlb; [done|by rewrite Hsi]. }
    assert (forall it, it ∈ live s' ->
              it = fulltext_successor item pa \/ it ∈ live s) as Hin.
    { intros it Hit. rewrite Hlive' in Hit. apply elem_of_cons in Hit as [|Hit]; [by left|].
      right. rewrite Hlive. by apply elem_of_cons; right. }
    split; rewrite ?Hc.
    + intros it Hit. apply Hin in Hit as [->|Hit]; [simpl; by apply Hn|by apply Hn].
    + intros it Hit Hs. apply Hin in Hit as [->|Hit]; [exact Hlab|by apply Hlb].
    + intros p a H. apply call_snoc in H as [H|H]; [exact (Hms _ _ H)|].
      injection H as -> ->. split; [by apply Hn|done].
    + intros p d H. apply call_snoc in H as [H|H]; [exact (Hfs _ _ H)|done].
    + intros it Hit Hs. apply Hin in Hit as [->|Hit]; [done|].
      by apply call_kept, Hos.
    + intros p a H. apply call_snoc in H as [H|H]; [|done].
      by apply call_kept, Hoc.
  - (* stored *)
    assert (item ∈ live s) as Hitem by (rewrite Hlive; apply elem_of_cons; by left).
    assert (forall it, it ∈ live s' ->
              it = ocr_successor item data \/ it ∈ live s) as Hin.
    { intros it Hit. rewrite Hlive' in Hit. apply elem_of_cons in Hit as [|Hit]; [by left|].
      right. rewrite Hlive. by apply elem_of_cons; right. }
    split; rewrite ?Hc.
    + intros it Hit. apply Hin in Hit as [->|Hit]; [simpl; by apply Hn|by apply Hn].
    + intros it Hit Hs. apply Hin in Hit as [->|Hit]; [done|by apply Hlb].
    + intros p a H. apply call_snoc in H as [H|H]; [exact (Hms _ _ H)|done].
    + intros p d H. apply call_snoc in H as [H|H]; [exact (Hfs _ _ H)|].
      by injection H as -> ->.
    + intros it Hit Hs. apply Hin in Hit as [->|Hit]; [apply call_last|].
      by apply call_kept, Hos.
    + intros p a H. apply call_snoc in H as [H|H]; [|done].
      by apply call_kept, Hoc.
  - (* chunked *)
    assert (item ∈ live s) as Hitem by (rewrite Hlive; apply elem_of_cons; by left).
    assert (forall it, it ∈ live s' -> it ∈ live s) as Hin.
    { intros it Hit. rewrite Hlive. by apply elem_of_cons; right. }
    split; rewrite ?Hc.
    + intros it Hit. by apply Hn, Hin.
    + intros it Hit Hs. apply Hlb; [by apply Hin|done].
    + intros p a H. apply call_snoc in H as [H|H]; [exact (Hms _ _ H)|done].
    + intros p d H. apply call_snoc in H as [H|H]; [exact (Hfs _ _ H)|done].
    + intros it Hit Hs. apply call_kept, Hos; [by apply Hin|done].
    + intros p a H. apply call_kept. apply call_snoc in H as [H|H]; [by apply Hoc|].
      injection H as -> ->. by apply Hos.
Qed.

Section Accounting.
Variable heuristics : Article -> option Enrichment.

Lemma sound_steps loaded s :
  steps heuristics (initial loaded) s -> sound s.
Proof.
  intros H. remember (initial loaded) as s0 eqn:E.
  induction H as [|s1 s2 s3 H IH Hst]; [subst; apply sound_initial|].
  eapply sound_traced; [|by eapply step_traced|by apply IH].
  subst. eapply inv_steps; [done|apply inv_initial].
Qed.

Lemma accounted_steps loaded s :
  steps heuristics (initial loaded) s -> inv s /\ accounted loaded s.
Proof.
  intros H. remember (initial loaded) as s0 eqn:E. induction H as [|s1 s2 s3 H IH Hst].
  - subst. split; [apply inv_initial|apply accounted_initial].
  - destruct (IH E) as [Hinv Hacc]. split; [by eapply inv_step|].
    eapply accounted_traced; [done| |done]. by eapply step_traced.
Qed.
End Accounting.


Lemma metadata_call_before cs i p :
  p ∈ metadata_calls (take i cs) ->
  exists (j : nat) a, (j < i)%nat /\ cs !! j = Some (StoreMetadataAndAbstract p a).
Proof.
  intros H. apply list_elem_of_omap in H as (c & Hc & Heq).
  destruct c; try done. injection Heq as ->.
  apply list_elem_of_lookup in Hc as [j Hj].
  apply lookup_take_Some in Hj as [Hj Hlt]. eauto.
Qed.

Lemma fulltext_call_before cs i p :
  p ∈ fulltext_calls (take i cs) ->
  exists (j : nat) d, (j < i)%nat /\ cs !! j = Some (StoreArticleFulltext p d).
Proof.
  intros H. apply list_elem_of_omap in H as (c & Hc & Heq).
  destruct c; try done. injection Heq as ->.
  apply list_elem_of_lookup in Hc as [j Hj].
  apply lookup_take_Some in Hj as [Hj Hlt]. eauto.
Qed.

Lemma chunked_333_steps : steps high_relevance (initial ∅) chunked_333.
Proof.
  unfold chunked_333, download_started, fulltext_pending, found_and_taken.
  eapply steps_next; [|apply step_ocr_item].
  eapply steps_next; [|apply step_ocr_get].
  eapply steps_next; [|apply step_fulltext_stored].
  eapply steps_next; [|apply step_fulltext_downloaded].
  eapply steps_next; [|apply step_fulltext_item].
  eapply steps_next; [|apply step_fulltext_get].
  eapply steps_next; [|apply step_processing_item].
  eapply steps_next; [|apply step_processing_get].
  eapply steps_next; [|apply step_search].
  apply steps_refl.
Qed.

Lemma chunked_333_calls :
  metadata_calls (calls chunked_333) = ["333"] /\
  fulltext_calls (calls chunked_333) = ["333"] /\
  ocr_calls (calls chunked_333) = ["333"].
Proof. vm_compute. done. Qed.

(** X11: each of the three persistence calls is made at most once per PMID
    in a run. *)
Theorem each_stage_once_per_pmid :
  forall (heuristics : Article -> option Enrichment) (s : State),
    reachable heuristics s ->
    NoDup (metadata_calls (calls s)) /\
    NoDup (fulltext_calls (calls s)) /\
    NoDup (ocr_calls (calls s)).
Proof.
  intros heuristics s [loaded H].
  apply accounted_steps in H as [_ H]. repeat split; apply H.
Qed.

Lemma each_stage_once_per_pmid_witness :
  NoDup (metadata_calls (calls chunked_333)) /\
  NoDup (fulltext_calls (calls chunked_333)) /\
  NoDup (ocr_calls (calls chunked_333)).
Proof.
  apply (each_stage_once_per_pmid high_relevance chunked_333).
  exists ∅. exact chunked_333_steps.
Defined.

(** X12: the full text of a PMID is stored only after its metadata was
    stored, and a PMID is chunked only after its full text was stored. *)
Theorem persistence_follows_stage_order :
  forall (heuristics : Article -> option Enrichment) (s : State),
    reachable heuristics s ->
    (forall (i : nat) p d,
       calls s !! i = Some (StoreArticleFulltext p d) ->
       exists (j : nat) a,
         (j < i)%nat /\ calls s !! j = Some (StoreMetadataAndAbstract p a)) /\
    (forall (i : nat) p a,
       calls s !! i = Some (ProcessOcrForRag p a) ->
       exists (j : nat) d,
         (j < i)%nat /\ calls s !! j = Some (StoreArticleFulltext p d)).
Proof.
  intros heuristics s [loaded H].
  apply accounted_steps in H as [_ H]. pose proof (calls_ordered _ _ H) as Ho.
  split; intros i p x Hi; specialize (Ho i _ Hi); simpl in Ho.
  - by apply metadata_call_before.
  - by apply fulltext_call_before.
Qed.

Lemma persistence_follows_stage_order_witness :
  (forall (i : nat) p d,
     calls chunked_333 !! i = Some (StoreArticleFulltext p d) ->
     exists (j : nat) a,
       (j < i)%nat /\ calls chunked_333 !! j = Some (StoreMetadataAndAbstract p a)) /\
  (forall (i : nat) p a,
     calls chunked_333 !! i = Some (ProcessOcrForRag p a) ->
     exists (j : nat) d,
       (j < i)%nat /\ calls chunked_333 !! j = Some (StoreArticleFulltext p d)).
Proof.
  apply (persistence_follows_stage_order high_relevance chunked_333).
  exists ∅. exact chunked_333_steps.
Defined.

Lemma index_of_run heuristics loaded s :
  steps heuristics (initial loaded) s ->
  processed_pmids s = loaded ∪ list_to_set (metadata_calls (calls s)).
Proof. intros H. apply accounted_steps in H as [_ H]. apply H. Qed.

(** X13: the index is the loaded snapshot plus the PMIDs whose metadata
    were stored in this run; nothing else enters it and nothing leaves. *)
Theorem index_is_loaded_plus_stored :
  forall (heuristics : Article -> option Enrichment) (loaded : gset string) (s : State),
    steps heuristics (initial loaded) s ->
    processed_pmids s = loaded ∪ list_to_set (metadata_calls (calls s)).
Proof.
  intros heuristics loaded s H.
  apply accounted_steps in H as [_ H]. exact (index_exact _ _ H).
Qed.

Lemma index_is_loaded_plus_stored_witness :
  processed_pmids chunked_333 = ∅ ∪ list_to_set (metadata_calls (calls chunked_333)).
Proof.
  apply (index_is_loaded_plus_stored high_relevance ∅ chunked_333).
  exact chunked_333_steps.
Defined.

Lemma loaded_not_called heuristics loaded s p :
  steps heuristics (initial loaded) s ->
  p ∈ loaded ->
  (p ∉ metadata_calls (calls s)) /\
  (p ∉ fulltext_calls (calls s)) /\
  (p ∉ ocr_calls (calls s)).
Proof.
  intros H Hp. apply accounted_steps in H as [_ H].
  assert (p ∉ metadata_calls (calls s)) as Hm.
  { intros Hin. by apply (metadata_new _ _ H p). }
  assert (p ∉ fulltext_calls (calls s)) as Hf.
  { intros Hin. apply Hm. eapply fulltext_after_metadata; [apply H|done]. }
  repeat split; [done|done|].
  intros Hin. apply Hf. eapply ocr_after_fulltext; [apply H|done].
Qed.

(** X14: a PMID of the loaded snapshot is never stored, fetched or chunked
    again in this run. *)
Theorem loaded_pmids_never_reprocessed :
  forall (heuristics : Article -> option Enrichment) (loaded : gset string)
         (s : State) (p : string),
    steps heuristics (initial loaded) s ->
    p ∈ loaded ->
    (p ∉ metadata_calls (calls s)) /\
    (p ∉ fulltext_calls (calls s)) /\
    (p ∉ ocr_calls (calls s)).
Proof.
  intros heuristics loaded s p H Hp. apply accounted_steps in H as [_ H].
  assert (p ∉ metadata_calls (calls s)) as Hm.
  { intros Hin. by apply (metadata_new _ _ H p). }
  assert (p ∉ fulltext_calls (calls s)) as Hf.
  { intros Hin. apply Hm. eapply fulltext_after_metadata; [apply H|done]. }
  repeat split; [done|done|].
  intros Hin. apply Hf. eapply ocr_after_fulltext; [apply H|done].
Qed.

Lemma restarted_steps :
  steps low_relevance
    (initial (_load_processed_index
                (Some (_save_processed_index (processed_pmids chunked_333)
                         "2024-06-02T00:00:00")))) restarted.
Proof.
  unfold restarted. eapply steps_next; [apply steps_refl|apply step_search].
Qed.

Lemma loaded_pmids_never_reprocessed_witness :
  ("333" ∉ metadata_calls (calls restarted)) /\
  ("333" ∉ fulltext_calls (calls restarted)) /\
  ("333" ∉ ocr_calls (calls restarted)).
Proof.
  apply (loaded_pmids_never_reprocessed low_relevance
           (_load_processed_index
              (Some (_save_processed_index (processed_pmids chunked_333)
                       "2024-06-02T00:00:00")))
           restarted "333").
  - exact restarted_steps.
  - vm_compute. reflexivity.
Defined.

(** The index read back from the file written for it is the same set. *)
Lemma index_round_trip index stamp :
  _load_processed_index (Some (_save_processed_index index stamp)) = index.
Proof. simpl. apply list_to_set_elements_L. Qed.

(** X15: saving the index and loading it at the next start is a round
    trip, so no PMID stored or already known in one run is stored, fetched
    or chunked in the next run. *)
Theorem restart_skips_known_pmids :
  forall (h h' : Article -> option Enrichment) (loaded : gset string)
         (s s' : State) (stamp p : string),
    steps h (initial loaded) s ->
    steps h' (initial (_load_processed_index
                         (Some (_save_processed_index (processed_pmids s) stamp)))) s' ->
    p ∈ loaded \/ p ∈ metadata_calls (calls s) ->
    (p ∉ metadata_calls (calls s')) /\
    (p ∉ fulltext_calls (calls s')) /\
    (p ∉ ocr_calls (calls s')).
Proof.
  intros h h' loaded s s' stamp p H H' Hp.
  rewrite index_round_trip in H'.
  apply (loaded_not_called h' _ _ _ H').
  rewrite (index_of_run _ _ _ H).
  apply elem_of_union. destruct Hp as [Hp|Hp]; [by left|right].
  by apply elem_of_list_to_set.
Qed.

Lemma restart_skips_known_pmids_witness :
  ("333" ∉ metadata_calls (calls restarted)) /\
  ("333" ∉ fulltext_calls (calls restarted)) /\
  ("333" ∉ ocr_calls (calls restarted)).
Proof.
  apply (restart_skips_known_pmids high_relevance low_relevance ∅ chunked_333
           restarted "2024-06-02T00:00:00" "333").
  - exact chunked_333_steps.
  - exact restarted_steps.
  - right. rewrite (proj1 chunked_333_calls). by apply list_elem_of_singleton.
Defined.

(** X16: in every reachable state the in-flight items carry one of the
    three stage names, an item past the metadata stage has its PMID in the
    index, and no two such items have the same PMID. *)
Theorem one_advanced_item_per_pmid :
  forall (heuristics : Article -> option Enrichment) (s : State),
    reachable heuristics s ->
    NoDup (pmid <$> filter (fun it => stage it <> "metadata") (live s)) /\
    Forall (fun it =>
              stage it ∈ ["metadata"; "fulltext"; "ocr"] /\
              (stage it <> "metadata" -> pmid it ∈ processed_pmids s))
           (live s).
Proof.
  intros heuristics s H. apply inv_reachable in H as [[Hok Hnd] _].
  split; [exact Hnd|].
  eapply Forall_impl; [exact Hok|]. intros it [[-> _]|[(-> & Hin & _)|[-> Hin]]].
  - split; [|done]. apply elem_of_cons. by left.
  - split; [|done]. apply elem_of_cons. right. apply elem_of_cons. by left.
  - split; [|done]. do 2 (apply elem_of_cons; right). apply elem_of_cons. by left.
Qed.

Lemma one_advanced_item_per_pmid_witness :
  NoDup (pmid <$> filter (fun it => stage it <> "metadata") (live download_started)) /\
  Forall (fun it =>
            stage it ∈ ["metadata"; "fulltext"; "ocr"] /\
            (stage it <> "metadata" -> pmid it ∈ processed_pmids download_started))
         (live download_started).
Proof.
  apply (one_advanced_item_per_pmid high_relevance download_started).
  exact download_started_reachable.
Defined.


(** X23: every metadata record that is stored is stored under its own
    PMID, which is not empty, and carries a relevance score of 0.3 or more:
    no article that the processor scores below the threshold reaches
    [_store_metadata_and_abstract]. *)
Theorem stored_metadata_is_relevant_and_labelled :
  forall (heuristics : Article -> option Enrichment) (s : State) (p : string)
         (a : Article),
    reachable heuristics s ->
    StoreMetadataAndAbstract p a ∈ calls s ->
    p <> EmptyString /\ get a "pmid" = PStr p /\ relevant a.
Proof.
  intros heuristics s p a [loaded H] Hin.
  apply sound_steps in H. exact (metadata_sound _ H p a Hin).
Qed.

Lemma stored_metadata_is_relevant_and_labelled_witness :
  "333" <> EmptyString /\ get enriched_333 "pmid" = PStr "333" /\ relevant enriched_333.
Proof.
  apply (stored_metadata_is_relevant_and_labelled high_relevance chunked_333
           "333" enriched_333).
  - exists ∅. exact chunked_333_steps.
  - apply (list_elem_of_lookup_2 _ 0%nat). vm_compute. reflexivity.
Defined.

(** X24: a full text is stored only when its 'full_text' is not empty,
    and the record handed to [_process_ocr_for_rag] is a record that
    [store_article_fulltext] was called with, under the same PMID. *)
Theorem chunked_record_is_the_stored_full_text :
  forall (heuristics : Article -> option Enrichment) (s : State),
    reachable heuristics s ->
    (forall p d, StoreArticleFulltext p d ∈ calls s ->
                 truthy (get d "full_text") = true) /\
    (forall p a, ProcessOcrForRag p a ∈ calls s ->
                 StoreArticleFulltext p a ∈ calls s /\
                 truthy (get a "full_text") = true).
Proof.
  intros heuristics s [loaded H]. apply sound_steps in H.
  split; [apply H|]. intros p a Hin.
  pose proof (ocr_sound _ H p a Hin) as Hst. split; [done|].
  exact (fulltext_sound _ H p a Hst).
Qed.

Lemma chunked_record_is_the_stored_full_text_witness :
  (forall p d, StoreArticleFulltext p d ∈ calls chunked_333 ->
               truthy (get d "full_text") = true) /\
  (forall p a, ProcessOcrForRag p a ∈ calls chunked_333 ->
               StoreArticleFulltext p a ∈ calls chunked_333 /\
               truthy (get a "full_text") = true).
Proof.
  apply (chunked_record_is_the_stored_full_text high_relevance chunked_333).
  exists ∅. exact chunked_333_steps.
Defined.

(** ** data_processor.py *)

Section Enriching.
Variable heuristics : Article -> option Enrichment.

Lemma processed_not_empty article processed :
  _process_single_article heuristics article = Some processed ->
  dict_truthy processed = true.
Proof.
  unfold _process_single_article. destruct (heuristics article) as [e|]; [|done].
  destruct (Qle_bool _ _); [|done]. intros [= <-].
  unfold dict_truthy. rewrite bool_decide_eq_false_2; [done|].
  apply insert_non_empty.
Qed.

Lemma process_articles_from acc articles :
  fold_left
    (fun processed_articles article =>
       match _process_single_article heuristics article with
       | Some processed_article =>
           if dict_truthy processed_article
           then processed_articles ++ [processed_article]
           else processed_articles
       | None => processed_articles
       end) articles acc =
  acc ++ omap (_process_single_article heuristics) articles.
Proof.
  revert acc. induction articles as [|a articles IH]; intros acc; simpl.
  - by rewrite app_nil_r.
  - rewrite IH. destruct (_process_single_article heuristics a) as [pa|] eqn:Hp; [|done].
    rewrite (processed_not_empty _ _ Hp). by rewrite <- app_assoc.
Qed.

Lemma process_single_article_spec article processed :
  _process_single_article heuristics article = Some processed ->
  exists e,
    heuristics article = Some e /\
    Qle relevance_threshold (relevance_score e) /\
    processed !! "relevance_score" = Some (PFloat (relevance_score e)) /\
    (forall key, key ∉ enrichment_keys -> processed !! key = article !! key).
Proof.
  unfold _process_single_article. destruct (heuristics article) as [e|]; [|done].
  destruct (Qle_bool _ _) eqn:Hq; [|done]. intros [= <-].
  exists e. split; [done|]. split; [by apply Qle_bool_iff|]. split.
  - by rewrite !lookup_insert_ne, lookup_insert by done.
  - intros key Hkey. unfold enrichment_keys in Hkey.
    rewrite !lookup_insert_ne; [done|..]; intros <-; apply Hkey;
      repeat first [by apply elem_of_cons; left | apply elem_of_cons; right].
Qed.

(** X17: [process_articles] keeps, in the order of the input, the
    articles that the heuristics score at 0.3 or more; each kept article
    carries its score and agrees with the input article on every key other
    than the six enrichment keys. *)
Theorem process_articles_keeps_relevant_in_order :
  forall articles : list Article,
    process_articles heuristics articles =
      omap (_process_single_article heuristics) articles /\
    Forall (fun processed =>
              exists article e,
                article ∈ articles /\
                heuristics article = Some e /\
                Qle relevance_threshold (relevance_score e) /\
                processed !! "relevance_score" = Some (PFloat (relevance_score e)) /\
                (forall key, key ∉ enrichment_keys ->
                             processed !! key = article !! key))
           (process_articles heuristics articles).
Proof.
  intros articles.
  assert (process_articles heuristics articles =
          omap (_process_single_article heuristics) articles) as E.
  { unfold process_articles. by rewrite process_articles_from. }
  split; [done|]. rewrite E. apply Forall_forall. intros pa Hpa.
  apply list_elem_of_omap in Hpa as (a & Ha & Hp).
  apply process_single_article_spec in Hp as (e & ? & ? & ? & ?).
  exists a, e. done.
Qed.
End Enriching.

(** ** fulltext_downloader.py *)

Lemma try_sources_first fenv srcs (k : nat) source_name result :
  srcs !! k = Some source_name ->
  adapter fenv source_name = Returned (Some result) ->
  has_full_text (Some result) = true ->
  (forall (j : nat) earlier, (j < k)%nat -> srcs !! j = Some earlier ->
     adapter_failed (adapter fenv earlier)) ->
  try_sources fenv srcs = Some result.
Proof.
  revert k. induction srcs as [|src srcs IH]; intros k Hk Ha Hf Hbefore; [done|].
  destruct k as [|k]; simpl in Hk; cbn [try_sources].
  - injection Hk as ->. by rewrite Ha, Hf.
  - assert (try_sources fenv srcs = Some result) as E.
    { apply (IH k); [done..|]. intros j earlier Hj He.
      apply (Hbefore (S j)); [lia|done]. }
    specialize (Hbefore 0%nat src ltac:(lia) eq_refl).
    destruct (adapter fenv src) as [|r]; [done|].
    unfold adapter_failed in Hbefore. by rewrite Hbefore.
Qed.

Lemma try_sources_found fenv srcs result :
  try_sources fenv srcs = Some result ->
  has_full_text (Some result) = true /\
  exists source_name,
    source_name ∈ srcs /\ adapter fenv source_name = Returned (Some result).
Proof.
  induction srcs as [|src srcs IH]; [done|]. simpl.
  destruct (adapter fenv src) as [|r] eqn:Ha.
  - intros H. destruct (IH H) as (? & name & ? & ?). split; [done|].
    exists name. split; [by apply elem_of_cons; right|done].
  - destruct (has_full_text r) eqn:Hf.
    + intros ->. split; [done|]. exists src. split; [by apply elem_of_cons; left|done].
    + intros H. destruct (IH H) as (? & name & ? & ?). split; [done|].
      exists name. split; [by apply elem_of_cons; right|done].
Qed.

(** X18: without an earlier download, the result is the answer of the
    first source, in the order pubmed_central, arxiv, sci_hub, direct_pdf,
    that returns a non-empty 'full_text'; sources that raise or return
    nothing usable are passed over. *)
Theorem download_takes_first_successful_source :
  forall (fenv : FetchEnv) (article result : Article) (k : nat) (source_name : string),
    not_cached fenv ->
    sources !! k = Some source_name ->
    adapter fenv source_name = Returned (Some result) ->
    has_full_text (Some result) = true ->
    (forall (j : nat) earlier, (j < k)%nat -> sources !! j = Some earlier ->
       adapter_failed (adapter fenv earlier)) ->
    download_full_text fenv article = result.
Proof.
  intros fenv article result k source_name Hc Hk Ha Hf Hbefore.
  pose proof (try_sources_first _ _ _ _ _ Hk Ha Hf Hbefore) as E.
  unfold download_full_text, not_cached in *.
  destruct (existing_download fenv) as [e|]; [rewrite Hc|]; by rewrite E.
Qed.


Lemma download_takes_first_successful_source_witness :
  download_full_text sci_hub_has_text (found (Some "333")) =
  <["full_text" := PStr "full text"]> enriched_333.
Proof.
  apply (download_takes_first_successful_source sci_hub_has_text
           (found (Some "333")) (<["full_text" := PStr "full text"]> enriched_333)
           2 "sci_hub").
  - exact I.
  - reflexivity.
  - reflexivity.
  - vm_compute. reflexivity.
  - intros [|[|j]] earlier Hj He; [| |lia]; injection He as <-; [exact I|reflexivity].
Defined.

Lemma try_sources_none fenv srcs :
  try_sources fenv srcs = None ->
  Forall (fun source_name => adapter_failed (adapter fenv source_name)) srcs.
Proof.
  induction srcs as [|src srcs IH]; [constructor|]. simpl.
  destruct (adapter fenv src) as [|r] eqn:Ha.
  - intros H. constructor; [by rewrite Ha|by apply IH].
  - destruct (has_full_text r) eqn:Hf.
    + intros ->. done.
    + intros H. constructor; [by rewrite Ha|by apply IH].
Qed.

(** X19: where the result of [download_full_text] comes from. A usable
    record of an earlier download is returned as it is, whatever the
    sources would answer. Otherwise the result is the answer of one of the
    four sources and has a non-empty 'full_text', or every source failed and
    the result is the article that was passed in. *)
Theorem download_result_origin :
  forall (fenv : FetchEnv) (article : Article),
    let result := download_full_text fenv article in
    (exists existing_text,
       existing_download fenv = Some existing_text /\
       dict_truthy existing_text = true /\ result = existing_text) \/
    (not_cached fenv /\
     Forall (fun source_name => adapter_failed (adapter fenv source_name)) sources /\
     result = article) \/
    (not_cached fenv /\
     exists source_name,
       source_name ∈ sources /\
       adapter fenv source_name = Returned (Some result) /\
       has_full_text (Some result) = true).
Proof.
  intros fenv article result. subst result.
  assert (not_cached fenv ->
          download_full_text fenv article = default article (try_sources fenv sources))
    as Hnc.
  { unfold not_cached, download_full_text.
    destruct (existing_download fenv) as [e|]; [|done]. by intros ->. }
  destruct (existing_download fenv) as [e|] eqn:He.
  - destruct (dict_truthy e) eqn:Hd.
    { left. exists e. unfold download_full_text. by rewrite He, Hd. }
    assert (not_cached fenv) as Hn by (unfold not_cached; by rewrite He).
    right. rewrite (Hnc Hn).
    destruct (try_sources fenv sources) as [answer|] eqn:E.
    + right. split; [done|]. apply try_sources_found in E as (Hf & name & Hin & Ha).
      by exists name.
    + left. split; [done|]. split; [by apply try_sources_none|done].
  - assert (not_cached fenv) as Hn by (unfold not_cached; by rewrite He).
    right. rewrite (Hnc Hn).
    destruct (try_sources fenv sources) as [answer|] eqn:E.
    + right. split; [done|]. apply try_sources_found in E as (Hf & name & Hin & Ha).
      by exists name.
    + left. split; [done|]. split; [by apply try_sources_none|done].
Qed.

End PipelineRuns.

(* ===================================================================== *)
(** * Properties of the batched search *)
(* ===================================================================== *)

Module ScraperSpec.
Import Py Pipeline Scraper ChunkerSpec ChunkerWindows.
Local Open Scope Z_scope.

Lemma concat_windows {A} (r m : nat) (l : list A) :
  (length l <= m * r)%nat ->
  concat (map (fun k : nat => take r (drop (k * r) l)) (seq 0 m)) = l.
Proof.
  revert l. induction m as [|m IH]; intros l Hl.
  - destruct l; [done|simpl in Hl; lia].
  - cbn [seq map concat]. rewrite <- seq_shift, map_map.
    transitivity (take r l ++ drop r l); [|apply take_drop]. f_equal.
    rewrite <- (IH (drop r l)) by (rewrite length_drop; lia).
    f_equal. apply map_ext. intros k. rewrite drop_drop. do 2 f_equal; lia.
Qed.

Lemma fold_left_extend {A B} (f : A -> list B) (l : list A) (acc : list B) :
  fold_left (fun acc x => acc ++ f x) l acc = acc ++ concat (f <$> l).
Proof.
  revert acc. induction l as [|x l IH]; intros acc; simpl.
  - by rewrite app_nil_r.
  - by rewrite IH, app_assoc.
Qed.


Lemma fmap_map {A B C} (f : B -> C) (g : A -> B) (l : list A) :
  f <$> map g l = map (fun x => f (g x)) l.
Proof. induction l as [|x l IH]; simpl; [done|]. by rewrite <- IH. Qed.

Lemma batches_of_range (pmids : list string) retmax :
  0 < retmax ->
  (fun i => slice pmids i (i + retmax)) <$>
    map (fun k : nat => Z.of_nat k * retmax)
        (seq 0 (Z.to_nat (range_length 0 (len pmids) retmax))) =
  map (fun k : nat => take (Z.to_nat retmax) (drop (k * Z.to_nat retmax) pmids))
      (seq 0 (Z.to_nat (range_length 0 (len pmids) retmax))).
Proof.
  intros Hr. rewrite fmap_map. apply map_ext_in.
  intros k Hk. apply in_seq in Hk.
  pose proof (range_index_bound (len pmids) retmax k Hr ltac:(lia)) as Hb.
  rewrite slice_take_drop by lia. do 2 f_equal. lia.
Qed.

Lemma range_length_covers stop step :
  0 < step -> 0 <= stop -> stop <= range_length 0 stop step * step.
Proof.
  intros Hs Hstop. unfold range_length.
  destruct (Z.ltb_spec 0 step); [|lia].
  destruct (Z.ltb_spec 0 stop); [|lia].
  Z.to_euclidean_division_equations. nia.
Qed.

(** X20: with a positive [retmax] the batches passed to
    [_fetch_article_details] are the PMID list cut into consecutive pieces:
    joined in order they give the list back, so each PMID is requested
    once, no batch is empty and none has more than [retmax] PMIDs; the
    result is the concatenation of the answers. *)
Theorem search_fetches_each_pmid_once :
  forall (fetch : list string -> list Article) (pmids : list string) (retmax : Z),
    0 < retmax ->
    exists batches,
      fetched_batches pmids retmax = Ok batches /\
      concat batches = pmids /\
      Forall (fun batch => 0 < len batch <= retmax) batches /\
      search_articles fetch pmids retmax = concat (fetch <$> batches).
Proof.
  intros fetch pmids retmax Hr.
  unfold fetched_batches, search_articles.
  rewrite range_positive_step by done.
  eexists. split; [reflexivity|].
  rewrite batches_of_range by done. split; [|split].
  - apply concat_windows.
    pose proof (range_length_covers (len pmids) retmax Hr ltac:(unfold len; lia)).
    unfold len in *. nia.
  - apply Forall_forall. intros b Hb.
    apply list_elem_of_In, in_map_iff in Hb as (k & <- & Hk). apply in_seq in Hk.
    pose proof (range_index_bound (len pmids) retmax k Hr ltac:(lia)) as Hlt.
    unfold len in *. rewrite length_take, length_drop. nia.
  - rewrite <- batches_of_range by done.
    case_bool_decide as He.
    + subst pmids. unfold range_length. simpl. by destruct (0 <? retmax).
    + rewrite fold_left_extend, app_nil_l. f_equal.
      apply (list_fmap_compose (fun i => slice pmids i (i + retmax)) fetch).
Qed.


Lemma search_fetches_each_pmid_once_witness :
  exists batches,
    fetched_batches ["11"; "12"; "13"; "14"; "15"] 2 = Ok batches /\
    concat batches = ["11"; "12"; "13"; "14"; "15"] /\
    Forall (fun batch => 0 < len batch <= 2) batches /\
    search_articles one_record_each ["11"; "12"; "13"; "14"; "15"] 2 =
      concat (one_record_each <$> batches).
Proof.
  apply (search_fetches_each_pmid_once one_record_each
           ["11"; "12"; "13"; "14"; "15"] 2).
  lia.
Defined.

(** X21: with [retmax] zero or negative nothing is fetched and the search
    returns no article, however many PMIDs were found: a zero step makes
    [range] raise ValueError, which the method catches, and a negative step
    gives an empty range. *)
Theorem nonpositive_retmax_fetches_nothing :
  forall (fetch : list string -> list Article) (pmids : list string) (retmax : Z),
    retmax <= 0 ->
    search_articles fetch pmids retmax = [] /\
    fetched_batches pmids retmax =
      (if retmax =? 0 then Raise ValueError else Ok []).
Proof.
  intros fetch pmids retmax Hr. unfold search_articles, fetched_batches, range.
  destruct (Z.eqb_spec retmax 0) as [->|Hne].
  - split; [by case_bool_decide|done].
  - unfold range_length.
    destruct (Z.ltb_spec 0 retmax); [lia|].
    destruct (Z.ltb_spec (len pmids) 0); [unfold len in *; lia|].
    split; [by case_bool_decide|done].
Qed.

Lemma nonpositive_retmax_fetches_nothing_witness :
  search_articles one_record_each ["11"; "12"; "13"] 0 = [] /\
  fetched_batches ["11"; "12"; "13"] 0 = Raise ValueError.
Proof.
  apply (nonpositive_retmax_fetches_nothing one_record_each ["11"; "12"; "13"] 0).
  lia.
Defined.

End ScraperSpec.

(* ===================================================================== *)
(** * Properties of the RSS worker *)
(* ===================================================================== *)

Module PublicationSpec.
Import Py GitManager Publication GitManagerCadence.
Local Open Scope Z_scope.

(** X5: an iteration of the RSS worker that is due, writes at least one
    feed and reads every feed file back without an exception runs
    'git commit' twice, first from [generate_rss_feeds] through
    [force_commit_and_push] and then from the forced 'rss_update' call.
    The first run is never counted; [commit_count] grows by one exactly
    when [_commit_changes] answers True for the second run, that is when it
    exits 0 or exits non-zero with 'nothing to commit', as it does after
    the first run has committed the feeds. The generation time is stamped
    whatever git answers. *)
Theorem rss_publication_commits_twice :
  forall (e : RssEnv) (self : t) (publish record : GitRuns)
         (clock stamp clock' stamp' : datetime),
    _should_generate_rss (last_rss_generation self) (check_clock e) = true ->
    written_feeds e <> [] ->
    feeds_readable e = true ->
    publish_env e = answers publish clock stamp ->
    record_env e = answers record clock' stamp' ->
    let counted run := exited_zero run || nothing_to_commit run in
    let '(self', log) := _rss_worker_iteration e self in
    commit_attempts log = [counted (commit_run publish); counted (commit_run record)] /\
    commit_count (git_manager self') =
      commit_count (git_manager self) +
      (if counted (commit_run record) then 1 else 0) /\
    last_rss_generation self' = Some (generation_stamp e).
Proof.
  intros e self publish record clock stamp clock' stamp' Hdue Hfeeds Hread Hp Hr counted.
  subst counted. cbv beta. rewrite <- !commit_changes_spec.
  unfold _rss_worker_iteration, generate_rss_feeds, _commit_rss_feeds.
  rewrite Hdue, Hread, Hp, Hr. rewrite bool_decide_eq_false_2 by done.
  cbn [andb negb]. rewrite bool_decide_eq_false_2 by done. cbn [negb].
  unfold force_commit_and_push, commit_and_push_if_needed, answers. simpl.
  destruct (_commit_changes (commit_run publish)), (_push_changes (push_run publish)),
    (_commit_changes (commit_run record)), (_push_changes (push_run record));
    simpl; (split; [reflexivity|split; [lia|reflexivity]]).
Qed.

Lemma rss_publication_commits_twice_witness :
  let '(self', log) :=
    _rss_worker_iteration (ordinary_publication 0 ["docs/rss/main.xml"])
      {| git_manager := init; last_rss_generation := None |} in
  commit_attempts log = [true; true] /\
  commit_count (git_manager self') = 0 + 1 /\
  last_rss_generation self' = Some 2.
Proof.
  apply (rss_publication_commits_twice
           (ordinary_publication 0 ["docs/rss/main.xml"])
           {| git_manager := init; last_rss_generation := None |}
           all_exit_ok nothing_staged 0 1 3 4);
    [reflexivity|discriminate|reflexivity|reflexivity|reflexivity].
Defined.

(** X6: an iteration that is not due, or that writes no feed, runs no git
    command and leaves the commit counter, the push time and the
    generation time as they were; after an iteration without feeds the
    next check is due again. *)
Theorem rss_iteration_without_feeds_changes_nothing :
  forall (e : RssEnv) (self : t),
    _should_generate_rss (last_rss_generation self) (check_clock e) = false \/
    written_feeds e = [] ->
    _rss_worker_iteration e self = (self, []).
Proof.
  intros e [g l] H. unfold _rss_worker_iteration, generate_rss_feeds.
  destruct (_should_generate_rss _ _) eqn:Hd; [|done].
  destruct H as [H|H]; [done|]. rewrite H. done.
Qed.

Lemma rss_iteration_without_feeds_changes_nothing_witness :
  _rss_worker_iteration (hourly_check 0 [])
    {| git_manager := init; last_rss_generation := None |} =
  ({| git_manager := init; last_rss_generation := None |}, []).
Proof.
  apply (rss_iteration_without_feeds_changes_nothing (hourly_check 0 [])
           {| git_manager := init; last_rss_generation := None |}).
  right. reflexivity.
Defined.

End PublicationSpec.
